(** * getData.mjs: validation and bottom-up aggregation of an estimate plan

    A shallow embedding of [src/getData.mjs].  The script parses an untrusted
    JavaScript value (the result of [JSON.parse]) with a stack of zod schemas.
    Three of them ([majorTask], [taskCategory], [estimateList]) are
    [z.preprocess] effects: the callback parses the raw node with the plain
    object schema, reduces the children to four totals, and returns
    [{...input, ...totals}], which zod then validates against the second
    schema ([... .and(estimates)]).

    The plain object schemas contain the effect schemas of the level below
    ([taskCategoryIn] has [z.array(majorTask)], [estimateSchema] has
    [z.array(taskCategory)]), so validating a callback's result runs the
    callbacks of the level below once more, on the children that are already
    aggregated.

    JavaScript numbers are IEEE-754 binary64 values, so they are modelled by
    Rocq's primitive [float]; [+], [-] and [/] are the primitive operations.
    Failure (a thrown [ZodError]) is the [ShapeError] case of [result].

    The last part covers the report the script prints from the parsed plan:
    the table rows of [formatTask] and the chart sections of
    [buildGanttSection]. *)

From Stdlib Require Import ZArith List String Ascii Bool Lia.
From Stdlib Require Import Floats.
From Stdlib Require Uint63.
From Stdlib Require Import Permutation Sorted.
Import ListNotations.

Set Warnings "-inexact-float,-register-all".
Local Open Scope float_scope.

(** ** JavaScript values *)

(** What [JSON.parse] can hand to the schemas.  An object is an association
    list in insertion order; [undefined] is the absence of a key. *)
Inductive value : Type :=
| VNull
| VBool (b : bool)
| VNum (x : float)
| VStr (s : string)
| VArr (items : list value)
| VObj (fields : list (string * value)).

(** [o[key]] *)
Fixpoint get (key : string) (o : list (string * value)) : option value :=
  match o with
  | [] => None
  | (k, v) :: o' => if String.eqb k key then Some v else get key o'
  end.

(** [o[key] = v], keeping the position of an existing key. *)
Fixpoint set (key : string) (v : value) (o : list (string * value))
  : list (string * value) :=
  match o with
  | [] => [(key, v)]
  | (k, w) :: o' =>
      if String.eqb k key then (k, v) :: o' else (k, w) :: set key v o'
  end.

(** [{...a, ...b}] *)
Definition spread (a b : list (string * value)) : list (string * value) :=
  fold_left (fun acc kv => set (fst kv) (snd kv) acc) b a.

(** ** Parse results *)

(** [schema.parse(v)] either returns the parsed output or throws. *)
Inductive result (A : Type) : Type :=
| Ok (a : A)
| ShapeError.
Arguments Ok {A} a.
Arguments ShapeError {A}.

Definition bind {A B} (r : result A) (k : A -> result B) : result B :=
  match r with
  | Ok a => k a
  | ShapeError => ShapeError
  end.

Notation "x <- e ;; k" := (bind e (fun x => k))
  (at level 61, e at next level, right associativity).

Definition schema (A : Type) : Type := option value -> result A.

Fixpoint mapM {A B} (f : A -> result B) (l : list A) : result (list B) :=
  match l with
  | [] => Ok []
  | x :: l' => y <- f x ;; ys <- mapM f l' ;; Ok (y :: ys)
  end.

(** ** zod primitives (zod 3 semantics) *)

(** [z.number()]: a value of type number that is not [NaN]. *)
Definition z_number : schema float := fun v =>
  match v with
  | Some (VNum x) => if is_nan x then ShapeError else Ok x
  | _ => ShapeError
  end.

(** [z.string()] *)
Definition z_string : schema string := fun v =>
  match v with
  | Some (VStr s) => Ok s
  | _ => ShapeError
  end.

(** [s.optional()]: [undefined] is accepted and kept. *)
Definition z_optional {A} (s : schema A) : schema (option A) := fun v =>
  match v with
  | None => Ok None
  | Some _ => a <- s v ;; Ok (Some a)
  end.

(** [z.array(s)] *)
Definition z_array {A} (s : schema A) : schema (list A) := fun v =>
  match v with
  | Some (VArr items) => mapM (fun item => s (Some item)) items
  | _ => ShapeError
  end.

(** [z.object({...})]: the data must be a plain object; [shape] reads the
    declared keys of it (unknown keys are stripped, which is zod's default). *)
Definition z_object {A} (shape : list (string * value) -> result A)
  : schema A := fun v =>
  match v with
  | Some (VObj o) => shape o
  | _ => ShapeError
  end.

(** One declared key of an object shape: the key's schema applied to
    [data[key]]. *)
Definition field {A} (key : string) (s : schema A) (o : list (string * value))
  : result A := s (get key o).

(** [l.and(r)]: both sides parse the same data and the outputs are merged. *)
Definition z_and {A B C} (l : schema A) (r : schema B) (merge : A -> B -> C)
  : schema C := fun v =>
  a <- l v ;; b <- r v ;; Ok (merge a b).

(** [z.preprocess(callback, s)]: the callback is applied to the data (and
    may throw), then [s] parses what the callback returned; the output is the
    output of [s]. *)
Definition z_preprocess {A} (callback : option value -> result value)
    (s : schema A) : schema A := fun val =>
  processed <- callback val ;; s (Some processed).

(** ** The parsed shapes *)

Record Estimates : Type := mkEstimates {
  lowerEstimate : float;
  higherEstimate : float;
  complexity : float;
  confidence : float
}.

Record Gantt : Type := mkGantt {
  position : float;
  start : string;
  label : option string;
  color : option string
}.

Record MinorTask : Type := mkMinorTask {
  minor_name : string;
  minor_estimates : Estimates;
  comment : option string
}.

Record MajorTaskIn : Type := mkMajorTaskIn {
  majorIn_name : string;
  majorIn_tasks : list MinorTask;
  majorIn_gantt : Gantt
}.

Record MajorTask : Type := mkMajorTask {
  major_name : string;
  major_tasks : list MinorTask;
  major_gantt : Gantt;
  major_estimates : Estimates
}.

Record TaskCategoryIn : Type := mkTaskCategoryIn {
  categoryIn_name : string;
  categoryIn_tasks : list MajorTask
}.

Record TaskCategory : Type := mkTaskCategory {
  category_name : string;
  category_tasks : list MajorTask;
  category_estimates : Estimates
}.

Record EstimateSchema : Type := mkEstimateSchema {
  schema_estimates : list TaskCategory
}.

Record EstimateList : Type := mkEstimateList {
  plan_estimates : list TaskCategory;
  plan_totals : Estimates
}.

(** The reducers read the four estimate fields of whatever node they are
    given. *)
Class HasEstimates (A : Type) : Type := estimatesOf : A -> Estimates.
#[export] Instance MinorTask_estimates : HasEstimates MinorTask := minor_estimates.
#[export] Instance MajorTask_estimates : HasEstimates MajorTask := major_estimates.
#[export] Instance TaskCategory_estimates : HasEstimates TaskCategory :=
  category_estimates.

(** ** The objects the preprocess callbacks build *)

Definition opt_field (key : string) (s : option string)
  : list (string * value) :=
  match s with
  | Some x => [(key, VStr x)]
  | None => []
  end.

Definition fields_of_estimates (e : Estimates) : list (string * value) :=
  [("lowerEstimate", VNum (lowerEstimate e));
   ("higherEstimate", VNum (higherEstimate e));
   ("complexity", VNum (complexity e));
   ("confidence", VNum (confidence e))]%string.

Definition value_of_gantt (g : Gantt) : value :=
  VObj ([("position", VNum (position g)); ("start", VStr (start g))]%string
        ++ opt_field "label" (label g) ++ opt_field "color" (color g)).

Definition value_of_minorTask (t : MinorTask) : value :=
  VObj ([("name", VStr (minor_name t))]%string
        ++ fields_of_estimates (minor_estimates t)
        ++ opt_field "comment" (comment t)).

Definition fields_of_majorTaskIn (i : MajorTaskIn) : list (string * value) :=
  [("name", VStr (majorIn_name i));
   ("tasks", VArr (map value_of_minorTask (majorIn_tasks i)));
   ("gantt", value_of_gantt (majorIn_gantt i))]%string.

Definition value_of_majorTask (t : MajorTask) : value :=
  VObj ([("name", VStr (major_name t));
         ("tasks", VArr (map value_of_minorTask (major_tasks t)));
         ("gantt", value_of_gantt (major_gantt t))]%string
        ++ fields_of_estimates (major_estimates t)).

Definition fields_of_taskCategoryIn (i : TaskCategoryIn)
  : list (string * value) :=
  [("name", VStr (categoryIn_name i));
   ("tasks", VArr (map value_of_majorTask (categoryIn_tasks i)))]%string.

Definition value_of_taskCategory (c : TaskCategory) : value :=
  VObj ([("name", VStr (category_name c));
         ("tasks", VArr (map value_of_majorTask (category_tasks c)))]%string
        ++ fields_of_estimates (category_estimates c)).

Definition fields_of_estimateSchema (i : EstimateSchema)
  : list (string * value) :=
  [("estimates", VArr (map value_of_taskCategory (schema_estimates i)))]%string.

Definition value_of_estimateList (p : EstimateList) : value :=
  VObj ([("estimates", VArr (map value_of_taskCategory (plan_estimates p)))]%string
        ++ fields_of_estimates (plan_totals p)).

(** ** Platform functions *)

(** The integer [r] as a number; exact for [|r| <= 2^53]. *)
Definition float_of_Z (r : Z) : float :=
  if (r <? 0)%Z then - of_uint63 (Uint63.of_Z (- r))
  else of_uint63 (Uint63.of_Z r).

(** [Math.round(x)]: the integral number closest to [x], the one nearer to
    [+Infinity] on a tie; [NaN], the infinities, the zeros and integral
    numbers are returned as they are, and a result of zero keeps the sign of
    [x].  For [x = n * 2^e] with [e < 0] the result is
    [floor (n * 2^e + 1/2)], computed on integers. *)
Definition Math_round (x : float) : float :=
  match Prim2SF x with
  | S754_finite s m e =>
      if (0 <=? e)%Z then x
      else
        let n := cond_Zopp s (Zpos m) in
        let r := ((2 * n + 2 ^ (- e)) / 2 ^ (1 - e))%Z in
        if (r =? 0)%Z then (if s then neg_zero else zero) else float_of_Z r
  | _ => x
  end.

(** [array.length] as a number (exact: an array has fewer than [2^32]
    elements). *)
Definition length_number {A} (l : list A) : float :=
  float_of_Z (Z.of_nat (List.length l)).

(** [Array.prototype.sort] with a comparator puts [a] after [b] when
    [comparefn(a, b) > 0]; only the sign of the result is used and a [NaN]
    result counts as [+0]. *)
Definition comes_after {A} (comparefn : A -> A -> float) (a b : A) : bool :=
  0 <? comparefn a b.

(** [Array.prototype.sort] is a stable sort (ECMAScript 2019); with a
    consistent comparator its result does not depend on the algorithm.  It is
    modelled by the stable insertion sort: each element, taken from the right,
    is moved behind the elements that the comparator puts strictly before
    it. *)
Fixpoint insert_sorted {A} (comparefn : A -> A -> float) (a : A) (l : list A)
  : list A :=
  match l with
  | [] => [a]
  | b :: l' =>
      if comes_after comparefn a b then b :: insert_sorted comparefn a l'
      else a :: b :: l'
  end.

Definition Array_sort {A} (comparefn : A -> A -> float) (l : list A) : list A :=
  fold_right (insert_sorted comparefn) [] l.

(** ** The schemas of getData.mjs *)

Definition estimates : schema Estimates :=
  z_object (fun o =>
    lo <- field "lowerEstimate" z_number o ;;
    hi <- field "higherEstimate" z_number o ;;
    cx <- field "complexity" z_number o ;;
    cf <- field "confidence" z_number o ;;
    Ok (mkEstimates lo hi cx cf)).

Definition gantt : schema Gantt :=
  z_object (fun o =>
    p <- field "position" z_number o ;;
    s <- field "start" z_string o ;;
    l <- field "label" (z_optional z_string) o ;;
    c <- field "color" (z_optional z_string) o ;;
    Ok (mkGantt p s l c)).

Definition minorTask : schema MinorTask :=
  z_and
    (z_and (z_object (fun o => field "name" z_string o)) estimates pair)
    (z_object (fun o => field "comment" (z_optional z_string) o))
    (fun ne c => mkMinorTask (fst ne) (snd ne) c).

Definition majorTaskIn : schema MajorTaskIn :=
  z_object (fun o =>
    n <- field "name" z_string o ;;
    ts <- field "tasks" (z_array minorTask) o ;;
    g <- field "gantt" gantt o ;;
    Ok (mkMajorTaskIn n ts g)).

(** The reducer callback, shared by the three levels: [n] is the length of
    the array being reduced. *)
Definition add_task {A} `{HasEstimates A} (n : float) (acc : Estimates)
    (task : A) : Estimates :=
  mkEstimates
    (lowerEstimate acc + lowerEstimate (estimatesOf task))
    (higherEstimate acc + higherEstimate (estimatesOf task))
    (complexity acc + complexity (estimatesOf task) / n)
    (confidence acc + confidence (estimatesOf task) / n).

(** [tasks.reduce(callback, {0, 0, 0, 0})] followed by the two
    [Math.round] assignments. *)
Definition totals_of {A} `{HasEstimates A} (tasks : list A) : Estimates :=
  let totals :=
    fold_left (add_task (length_number tasks)) tasks (mkEstimates 0 0 0 0) in
  mkEstimates (lowerEstimate totals) (higherEstimate totals)
    (Math_round (complexity totals)) (Math_round (confidence totals)).

Definition majorTask : schema MajorTask :=
  z_preprocess
    (fun val =>
       input <- majorTaskIn val ;;
       let totals := totals_of (majorIn_tasks input) in
       Ok (VObj (spread (fields_of_majorTaskIn input)
                        (fields_of_estimates totals))))
    (z_and majorTaskIn estimates
       (fun i e =>
          mkMajorTask (majorIn_name i) (majorIn_tasks i) (majorIn_gantt i) e)).

Definition taskCategoryIn : schema TaskCategoryIn :=
  z_object (fun o =>
    n <- field "name" z_string o ;;
    ts <- field "tasks" (z_array majorTask) o ;;
    Ok (mkTaskCategoryIn n ts)).

(** [(a, b) => a.gantt.position - b.gantt.position] *)
Definition by_position (a b : MajorTask) : float :=
  position (major_gantt a) - position (major_gantt b).

(** [input.tasks.sort(...)] sorts the parsed array in place, after the
    totals were reduced from it. *)
Definition taskCategory : schema TaskCategory :=
  z_preprocess
    (fun val =>
       input <- taskCategoryIn val ;;
       let totals := totals_of (categoryIn_tasks input) in
       let input :=
         mkTaskCategoryIn (categoryIn_name input)
           (Array_sort by_position (categoryIn_tasks input)) in
       Ok (VObj (spread (fields_of_taskCategoryIn input)
                        (fields_of_estimates totals))))
    (z_and taskCategoryIn estimates
       (fun i e => mkTaskCategory (categoryIn_name i) (categoryIn_tasks i) e)).

Definition estimateSchema : schema EstimateSchema :=
  z_object (fun o =>
    es <- field "estimates" (z_array taskCategory) o ;;
    Ok (mkEstimateSchema es)).

Definition estimateList : schema EstimateList :=
  z_preprocess
    (fun val =>
       input <- estimateSchema val ;;
       let totals := totals_of (schema_estimates input) in
       Ok (VObj (spread (fields_of_estimateSchema input)
                        (fields_of_estimates totals))))
    (z_and estimateSchema estimates
       (fun i e => mkEstimateList (schema_estimates i) e)).

(** ** Facts about binary64 arithmetic

    The order of the numbers, the monotonicity of addition and the sign of a
    difference, proved from the specification of the primitive operations
    ([FloatAxioms]) through [SpecFloat]'s definitions.  A number is measured
    by its value in units of [2^-1074], an integer. *)

Module FloatFacts.

Local Open Scope Z_scope.

Definition top : Z := 2 ^ 2098.

Definition ord (x : spec_float) : Z :=
  match x with
  | S754_zero _ => 0
  | S754_nan => 0
  | S754_infinity s => cond_Zopp s top
  | S754_finite s m e => cond_Zopp s (Zpos m * 2 ^ (e + 1074))
  end.

Definition is_nanSF (x : spec_float) : bool :=
  match x with S754_nan => true | _ => false end.

Lemma size_digits2 p : Pos.size p = digits2_pos p.
Proof. induction p; simpl; congruence. Qed.

Lemma digits2_log2 m : Zpos (digits2_pos m) = Z.log2 (Zpos m) + 1.
Proof.
  destruct m as [p|p|]; [| |reflexivity];
    unfold Z.log2; rewrite (size_digits2 p); cbn [digits2_pos];
    rewrite Pos2Z.inj_succ; lia.
Qed.

Lemma pow2_gt0 n : 0 <= n -> 0 < 2 ^ n.
Proof. intros; apply Z.pow_pos_nonneg; lia. Qed.

Lemma log2_bounds a : 0 < a -> 2 ^ Z.log2 a <= a < 2 ^ (Z.log2 a + 1).
Proof. intros H. apply Z.log2_spec in H. exact H. Qed.

Lemma valid_finite s m e :
  valid_binary (S754_finite s m e) = true ->
  -1074 <= e <= 971 /\ Z.log2 (Zpos m) + 1 <= 53
  /\ (-1074 < e -> Z.log2 (Zpos m) + 1 = 53).
Proof.
  unfold SpecFloat.valid_binary, bounded, canonical_mantissa, fexp, SpecFloat.emin.
  rewrite andb_true_iff, Z.eqb_eq, Z.leb_le, digits2_log2.
  unfold prec, emax. lia.
Qed.

Lemma valid_finite_lt_top s m e :
  valid_binary (S754_finite s m e) = true ->
  0 < Zpos m * 2 ^ (e + 1074) < top.
Proof.
  intros H. apply valid_finite in H. destruct H as (He & Hd & _).
  assert (Hm := log2_bounds (Zpos m) ltac:(lia)).
  assert (P1 : 0 < 2 ^ (e + 1074)) by (apply pow2_gt0; lia).
  split; [lia|].
  assert (Zpos m < 2 ^ 53).
  { eapply Z.lt_le_trans; [apply Hm|]. apply Z.pow_le_mono_r; lia. }
  assert (2 ^ (e + 1074) <= 2 ^ 2045) by (apply Z.pow_le_mono_r; lia).
  unfold top. replace 2098 with (53 + 2045) by lia.
  rewrite (Z.pow_add_r 2 53 2045) by lia.
  assert (0 < 2 ^ 53) by (apply pow2_gt0; lia).
  nia.
Qed.

Lemma compare_mul_pos a b p : 0 < p -> (a * p ?= b * p) = (a ?= b).
Proof.
  intros Hp. destruct (Z.compare_spec a b) as [E|E|E].
  - subst. apply Z.compare_refl.
  - apply Z.compare_lt_iff. apply Z.mul_lt_mono_pos_r; assumption.
  - apply Z.compare_gt_iff. apply Z.mul_lt_mono_pos_r; assumption.
Qed.

Lemma cmp_finite m1 e1 m2 e2 :
  valid_binary (S754_finite false m1 e1) = true ->
  valid_binary (S754_finite false m2 e2) = true ->
  match e1 ?= e2 with
  | Lt => Lt
  | Gt => Gt
  | Eq => Pos.compare_cont Eq m1 m2
  end = (Zpos m1 * 2 ^ (e1 + 1074) ?= Zpos m2 * 2 ^ (e2 + 1074)).
Proof.
  intros V1 V2. apply valid_finite in V1, V2.
  destruct V1 as (He1 & Hd1 & Hn1), V2 as (He2 & Hd2 & Hn2).
  assert (B1 := log2_bounds (Zpos m1) ltac:(lia)).
  assert (B2 := log2_bounds (Zpos m2) ltac:(lia)).
  assert (L : forall m e m' e', e < e' -> -1074 <= e ->
            Z.log2 (Zpos m) + 1 <= 53 -> Z.log2 (Zpos m') + 1 = 53 ->
            Zpos m * 2 ^ (e + 1074) < Zpos m' * 2 ^ (e' + 1074)).
  { clear. intros m e m' e' Hlt He Hd Hd'.
    assert (B := log2_bounds (Zpos m) ltac:(lia)).
    assert (B' := log2_bounds (Zpos m') ltac:(lia)).
    replace (Z.log2 (Zpos m')) with 52 in B' by lia.
    assert (Zpos m < 2 ^ 53).
    { eapply Z.lt_le_trans; [apply B|]. apply Z.pow_le_mono_r; lia. }
    replace (e' + 1074) with ((e + 1074) + (e' - e)) by lia.
    rewrite (Z.pow_add_r 2 (e + 1074) (e' - e)) by lia.
    assert (0 < 2 ^ (e + 1074)) by (apply pow2_gt0; lia).
    assert (2 ^ 1 <= 2 ^ (e' - e)) by (apply Z.pow_le_mono_r; lia).
    change (2 ^ 1) with 2 in *.
    assert (H53 : 2 ^ 53 = 2 ^ 52 * 2) by reflexivity.
    assert (H2 : 2 ^ 52 * 2 <= Zpos m' * 2 ^ (e' - e)).
    { apply Z.mul_le_mono_nonneg; lia. }
    replace (Zpos m' * (2 ^ (e + 1074) * 2 ^ (e' - e)))
      with ((Zpos m' * 2 ^ (e' - e)) * 2 ^ (e + 1074)) by ring.
    apply Z.mul_lt_mono_pos_r; lia. }
  destruct (Z.compare_spec e1 e2) as [E|E|E].
  - subst e2. rewrite Pos.compare_cont_spec. cbn [Pos.switch_Eq].
    assert (P : 0 < 2 ^ (e1 + 1074)) by (apply pow2_gt0; lia).
    change (Pos.compare m1 m2) with (Zpos m1 ?= Zpos m2).
    rewrite compare_mul_pos by exact P.
    destruct (Zpos m1 ?= Zpos m2); reflexivity.
  - symmetry. apply Z.compare_lt_iff. apply L; lia.
  - symmetry. apply Z.compare_gt_iff. apply L; lia.
Qed.

Ltac cmp_solve :=
  f_equal; symmetry;
  first [ apply Z.compare_eq_iff; lia
        | apply Z.compare_lt_iff; lia
        | apply Z.compare_gt_iff; lia ].

(** On valid numbers other than NaN, the IEEE order is the order of [ord]. *)
Lemma SFcompare_ord x y :
  valid_binary x = true -> valid_binary y = true ->
  is_nanSF x = false -> is_nanSF y = false ->
  SFcompare x y = Some (ord x ?= ord y).
Proof.
  intros Vx Vy Nx Ny.
  assert (T : 0 < top) by (apply pow2_gt0; lia).
  destruct x as [sx|sx| |sx mx ex], y as [sy|sy| |sy my ey];
    try discriminate; cbn [SFcompare ord].
  - reflexivity.
  - destruct sy; cbn [cond_Zopp]; cmp_solve.
  - apply valid_finite_lt_top in Vy.
    destruct sy; cbn [cond_Zopp]; cmp_solve.
  - destruct sx; cbn [cond_Zopp]; cmp_solve.
  - destruct sx, sy; cbn [cond_Zopp]; cmp_solve.
  - apply valid_finite_lt_top in Vy.
    destruct sx, sy; cbn [cond_Zopp]; cmp_solve.
  - apply valid_finite_lt_top in Vx.
    destruct sx; cbn [cond_Zopp]; cmp_solve.
  - apply valid_finite_lt_top in Vx.
    destruct sx, sy; cbn [cond_Zopp]; cmp_solve.
  - assert (Px := valid_finite_lt_top _ _ _ Vx).
    assert (Py := valid_finite_lt_top _ _ _ Vy).
    destruct sx, sy; cbn [cond_Zopp]; try cmp_solve; f_equal.
    + rewrite Z.compare_opp.
      rewrite <- (cmp_finite my ey mx ex) by assumption.
      rewrite (Z.compare_antisym ex ey).
      destruct (ex ?= ey); cbn [CompOpp]; try reflexivity.
      rewrite Pos.compare_cont_antisym. reflexivity.
    + apply cmp_finite; assumption.
Qed.

(** *** Rounding to nearest, ties to even, on scaled integers *)

Definition loc_of (rem p : Z) : location :=
  if rem =? 0 then loc_Exact else loc_Inexact (2 * rem ?= p).

Definition rne (a k : Z) : Z :=
  round_nearest_even (a / 2 ^ k) (loc_of (a mod 2 ^ k) (2 ^ k)).

Definition shiftc (a : Z) : Z := Z.max 0 (Z.log2 a + 1 - 53).

Definition RNDpos (a : Z) : Z := Z.min top (rne a (shiftc a) * 2 ^ shiftc a).

Definition RND (a : Z) : Z :=
  match a with
  | 0 => 0
  | Zpos _ => RNDpos a
  | Zneg p => - RNDpos (Zpos p)
  end.

Lemma rne_cases a k :
  0 <= k ->
  (rne a k = a / 2 ^ k /\ 2 * (a mod 2 ^ k) <= 2 ^ k) \/
  (rne a k = a / 2 ^ k + 1 /\ 2 ^ k <= 2 * (a mod 2 ^ k)).
Proof.
  intros Hk. assert (P := pow2_gt0 k Hk).
  assert (R := Z.mod_pos_bound a (2 ^ k) P).
  unfold rne, loc_of, round_nearest_even.
  destruct (Z.eqb_spec (a mod 2 ^ k) 0) as [E|E]; [left; lia|].
  destruct (Z.compare_spec (2 * (a mod 2 ^ k)) (2 ^ k)) as [C|C|C].
  - destruct (Z.even (a / 2 ^ k)); [left|right]; lia.
  - left; lia.
  - right; lia.
Qed.

Lemma rne_mono a b k : 0 <= k -> 0 <= a <= b -> rne a k <= rne b k.
Proof.
  intros Hk Hab. assert (P := pow2_gt0 k Hk).
  assert (Ra := Z.mod_pos_bound a (2 ^ k) P).
  assert (Rb := Z.mod_pos_bound b (2 ^ k) P).
  assert (Da := Z.div_mod a (2 ^ k) ltac:(lia)).
  assert (Db := Z.div_mod b (2 ^ k) ltac:(lia)).
  assert (Q : a / 2 ^ k <= b / 2 ^ k) by (apply Z.div_le_mono; lia).
  destruct (Z.eq_dec (a / 2 ^ k) (b / 2 ^ k)) as [E|E].
  - assert (Hr : a mod 2 ^ k <= b mod 2 ^ k) by (rewrite E in Da; lia).
    unfold rne, loc_of, round_nearest_even. rewrite E.
    destruct (Z.eqb_spec (a mod 2 ^ k) 0) as [Ea|Ea];
      destruct (Z.eqb_spec (b mod 2 ^ k) 0) as [Eb|Eb];
      destruct (Z.compare_spec (2 * (a mod 2 ^ k)) (2 ^ k));
      destruct (Z.compare_spec (2 * (b mod 2 ^ k)) (2 ^ k));
      destruct (Z.even (b / 2 ^ k)); lia.
  - destruct (rne_cases a k Hk) as [[-> _]|[-> _]],
             (rne_cases b k Hk) as [[-> _]|[-> _]]; lia.
Qed.

Lemma shiftc_nonneg a : 0 <= shiftc a.
Proof. unfold shiftc. lia. Qed.

Lemma shiftc_mono a b : a <= b -> shiftc a <= shiftc b.
Proof.
  intros H. unfold shiftc. assert (L := Z.log2_le_mono a b H). lia.
Qed.

(** The quotient by the rounding unit has 53 bits at most, and exactly 53
    when a shift was needed. *)
Lemma quotient_bounds a :
  0 < a ->
  1 <= a / 2 ^ shiftc a < 2 ^ 53 /\
  (0 < shiftc a -> 2 ^ 52 <= a / 2 ^ shiftc a).
Proof.
  intros Ha. assert (B := log2_bounds a Ha).
  assert (L := Z.log2_nonneg a).
  assert (K := shiftc_nonneg a). assert (P := pow2_gt0 _ K).
  assert (U : a / 2 ^ shiftc a < 2 ^ 53).
  { apply Z.div_lt_upper_bound; [assumption|].
    rewrite <- Z.pow_add_r by lia.
    eapply Z.lt_le_trans; [apply B|]. apply Z.pow_le_mono_r; unfold shiftc; lia. }
  assert (Lo : 2 ^ (Z.log2 a - shiftc a) <= a / 2 ^ shiftc a).
  { apply Z.div_le_lower_bound; [assumption|].
    rewrite <- Z.pow_add_r by (unfold shiftc; lia).
    replace (shiftc a + (Z.log2 a - shiftc a)) with (Z.log2 a) by lia. lia. }
  split; [split; [|exact U]|].
  - assert (0 < 2 ^ (Z.log2 a - shiftc a))
      by (apply pow2_gt0; unfold shiftc; lia). lia.
  - intros Hs. replace 52 with (Z.log2 a - shiftc a) by (unfold shiftc in *; lia).
    exact Lo.
Qed.

Lemma RNDpos_pos a : 0 < a -> 0 < RNDpos a.
Proof.
  intros Ha. unfold RNDpos.
  assert (T : 0 < top) by (apply pow2_gt0; lia).
  assert (K := shiftc_nonneg a). assert (P := pow2_gt0 _ K).
  destruct (quotient_bounds a Ha) as ((Q1 & _) & _).
  assert (0 < rne a (shiftc a)).
  { destruct (rne_cases a (shiftc a) K) as [[-> _]|[-> _]]; lia. }
  apply Z.min_glb_lt; [assumption|]. apply Z.mul_pos_pos; assumption.
Qed.

Lemma RNDpos_mono a b : 0 < a <= b -> RNDpos a <= RNDpos b.
Proof.
  intros [Ha Hab]. unfold RNDpos. apply Z.min_le_compat_l.
  assert (Ka := shiftc_nonneg a). assert (Kb := shiftc_nonneg b).
  assert (Kab := shiftc_mono a b Hab).
  assert (Pa := pow2_gt0 _ Ka). assert (Pb := pow2_gt0 _ Kb).
  destruct (Z.eq_dec (shiftc a) (shiftc b)) as [E|E].
  - rewrite E. apply Z.mul_le_mono_nonneg_r; [lia|].
    apply rne_mono; lia.
  - (* a has fewer bits than b: a power of two lies between the results *)
    assert (Hb : 0 < shiftc b) by lia.
    destruct (quotient_bounds a Ha) as ((_ & Ua) & _).
    destruct (quotient_bounds b ltac:(lia)) as (_ & Lb).
    specialize (Lb Hb).
    assert (Ra : rne a (shiftc a) <= 2 ^ 53).
    { destruct (rne_cases a (shiftc a) Ka) as [[-> _]|[-> _]]; lia. }
    assert (Rb : 2 ^ 52 <= rne b (shiftc b)).
    { destruct (rne_cases b (shiftc b) Kb) as [[-> _]|[-> _]]; lia. }
    apply Z.le_trans with (2 ^ 53 * 2 ^ shiftc a).
    { apply Z.mul_le_mono_nonneg_r; lia. }
    apply Z.le_trans with (2 ^ 52 * 2 ^ shiftc b).
    2:{ apply Z.mul_le_mono_nonneg_r; lia. }
    rewrite <- !Z.pow_add_r by lia. apply Z.pow_le_mono_r; lia.
Qed.

Lemma RND_sgn a : Z.sgn (RND a) = Z.sgn a.
Proof.
  destruct a as [|p|p]; cbn [RND]; [reflexivity| |].
  - assert (H := RNDpos_pos (Zpos p) ltac:(lia)). lia.
  - assert (H := RNDpos_pos (Zpos p) ltac:(lia)). lia.
Qed.

Lemma RND_mono a b : a <= b -> RND a <= RND b.
Proof.
  intros H.
  destruct a as [|p|p], b as [|q|q]; cbn [RND]; try lia.
  - assert (Hq := RNDpos_pos (Zpos q) ltac:(lia)). lia.
  - apply RNDpos_mono. lia.
  - assert (Hp := RNDpos_pos (Zpos p) ltac:(lia)). lia.
  - assert (Hp := RNDpos_pos (Zpos p) ltac:(lia)).
    assert (Hq := RNDpos_pos (Zpos q) ltac:(lia)). lia.
  - assert (Hm := RNDpos_mono (Zpos q) (Zpos p)). lia.
Qed.

(** *** The rounding algorithm of [SpecFloat] computes [RND] *)

(** What [n] right shifts of [M] leave in the shift record. *)
Definition shifted (M n : Z) (rec : shr_record) : Prop :=
  shr_m rec = M / 2 ^ n /\
  loc_of_shr_record rec = loc_of (M mod 2 ^ n) (2 ^ n).

Lemma shifted_0 M : shifted M 0 (Build_shr_record M false false).
Proof.
  unfold shifted; cbn [shr_m loc_of_shr_record]. change (2 ^ 0) with 1.
  rewrite Z.div_1_r, Z.mod_1_r. split; reflexivity.
Qed.

Lemma shr_1_bit m r s :
  0 <= m ->
  shr_1 (Build_shr_record m r s)
  = Build_shr_record (m / 2) (m mod 2 =? 1) (r || s).
Proof.
  intros Hm.
  assert (B := Z.mod_pos_bound m 2 ltac:(lia)).
  assert (D := Z.div_mod m 2 ltac:(lia)).
  destruct m as [|[q|q|]|q]; try lia; cbn [shr_1].
  - reflexivity.
  - rewrite Pos2Z.inj_xI in B, D.
    replace (Zpos q~1 / 2) with (Zpos q) by (rewrite Pos2Z.inj_xI; lia).
    replace (Zpos q~1 mod 2) with 1 by (rewrite Pos2Z.inj_xI; lia).
    reflexivity.
  - rewrite Pos2Z.inj_xO in B, D.
    replace (Zpos q~0 / 2) with (Zpos q) by (rewrite Pos2Z.inj_xO; lia).
    replace (Zpos q~0 mod 2) with 0 by (rewrite Pos2Z.inj_xO; lia).
    reflexivity.
  - reflexivity.
Qed.

Ltac loc_solve :=
  f_equal; symmetry;
  first [ apply Z.compare_eq_iff; lia
        | apply Z.compare_lt_iff; lia
        | apply Z.compare_gt_iff; lia ].

Lemma shr_1_shifted M n rec :
  0 <= M -> 0 <= n -> shifted M n rec -> shifted M (n + 1) (shr_1 rec).
Proof.
  intros HM Hn [Hm Hl]. assert (P := pow2_gt0 n Hn).
  assert (R := Z.mod_pos_bound M (2 ^ n) P).
  assert (Q : 0 <= M / 2 ^ n) by (apply Z.div_pos; lia).
  unfold shifted. rewrite Z.pow_add_r by lia. change (2 ^ 1) with 2.
  rewrite <- Z.div_div by lia.
  rewrite Z.rem_mul_r by lia.
  assert (B := Z.mod_pos_bound (M / 2 ^ n) 2 ltac:(lia)).
  destruct rec as [m r s]; cbn [shr_m] in *. subst m.
  rewrite shr_1_bit by assumption. cbn [shr_m loc_of_shr_record].
  split; [reflexivity|].
  unfold loc_of in *.
  set (q := M / 2 ^ n) in *. set (rem := M mod 2 ^ n) in *.
  set (p := 2 ^ n) in *.
  assert (Hrs : (r || s = false /\ rem = 0) \/ (r || s = true /\ rem <> 0)).
  { destruct (Z.eqb_spec rem 0); destruct r, s; cbn in Hl; try discriminate;
      auto. }
  destruct (Z.eqb_spec (q mod 2) 1) as [E2|E2].
  - rewrite E2. destruct (Z.eqb_spec (rem + p * 1) 0); [lia|].
    destruct Hrs as [[-> E]|[-> E]]; loc_solve.
  - replace (q mod 2) with 0 by lia. rewrite Z.mul_0_r, Z.add_0_r.
    destruct Hrs as [[-> E]|[-> E]].
    + rewrite E. reflexivity.
    + destruct (Z.eqb_spec rem 0); [contradiction|]. loc_solve.
Qed.

Lemma iter_shr_1_shifted M :
  0 <= M ->
  forall p n rec, 0 <= n -> shifted M n rec ->
    shifted M (n + Zpos p) (iter_pos shr_1 p rec).
Proof.
  intros HM. induction p as [p IH|p IH|]; intros n rec Hn H; cbn [iter_pos].
  - replace (n + Zpos p~1) with (((n + 1) + Zpos p) + Zpos p)
      by (rewrite Pos2Z.inj_xI; lia).
    apply IH; [lia|]. apply IH; [lia|]. apply shr_1_shifted; assumption.
  - replace (n + Zpos p~0) with ((n + Zpos p) + Zpos p)
      by (rewrite Pos2Z.inj_xO; lia).
    apply IH; [lia|]. apply IH; assumption.
  - apply shr_1_shifted; assumption.
Qed.

Definition fexp64 (e : Z) : Z := Z.max (e - 53) (-1074).

Lemma fexp_64 e : fexp prec emax e = fexp64 e.
Proof. reflexivity. Qed.

Lemma Zdigits2_log2 M : 0 < M -> Zdigits2 M = Z.log2 M + 1.
Proof.
  destruct M as [|m|m]; try lia. intros _. cbn [Zdigits2]. apply digits2_log2.
Qed.

(** The first right shift of [binary_round_aux]. *)
Lemma shr_fexp_shifted M e :
  0 < M ->
  let n := Z.max 0 (fexp64 (Z.log2 M + 1 + e) - e) in
  exists rec,
    shr_fexp prec emax M e loc_Exact = (rec, e + n) /\ shifted M n rec.
Proof.
  intros HM n. unfold shr_fexp. rewrite Zdigits2_log2, fexp_64 by assumption.
  cbn [shr_record_of_loc]. subst n.
  destruct (fexp64 (Z.log2 M + 1 + e) - e) as [|p|p] eqn:E; cbn [shr].
  - exists (Build_shr_record M false false). rewrite Z.add_0_r.
    split; [reflexivity|apply shifted_0].
  - exists (iter_pos shr_1 p (Build_shr_record M false false)).
    replace (Z.max 0 (Zpos p)) with (0 + Zpos p) by lia.
    split; [f_equal; lia|].
    apply iter_shr_1_shifted; [lia|lia|apply shifted_0].
  - exists (Build_shr_record M false false).
    replace (Z.max 0 (Zneg p)) with 0 by lia. rewrite Z.add_0_r.
    split; [reflexivity|apply shifted_0].
Qed.

Lemma rne_shifted M n rec :
  shifted M n rec ->
  round_nearest_even (shr_m rec) (loc_of_shr_record rec) = rne M n.
Proof. intros [-> ->]. reflexivity. Qed.

Lemma rne_0 M : rne M 0 = M.
Proof.
  unfold rne, loc_of. change (2 ^ 0) with 1.
  rewrite Z.div_1_r, Z.mod_1_r. reflexivity.
Qed.

Lemma rne_scale M n j :
  0 <= n -> 0 <= j -> rne (M * 2 ^ j) (n + j) = rne M n.
Proof.
  intros Hn Hj. assert (Pn := pow2_gt0 n Hn). assert (Pj := pow2_gt0 j Hj).
  unfold rne, loc_of. rewrite Z.pow_add_r by assumption.
  rewrite Z.div_mul_cancel_r by lia.
  rewrite Z.mul_mod_distr_r by lia.
  destruct (Z.eqb_spec (M mod 2 ^ n) 0) as [E|E].
  - rewrite E. reflexivity.
  - destruct (Z.eqb_spec (M mod 2 ^ n * 2 ^ j) 0) as [E'|E']; [nia|].
    f_equal. f_equal.
    replace (2 * (M mod 2 ^ n * 2 ^ j)) with (2 * (M mod 2 ^ n) * 2 ^ j) by ring.
    apply compare_mul_pos. assumption.
Qed.

(** The second right shift of [binary_round_aux]: at most one position,
    when rounding carried into a 54th bit. *)
Lemma shr_fexp_renorm m e :
  0 < m <= 2 ^ 53 -> -1074 <= e -> e <= fexp64 (Z.log2 m + 1 + e) ->
  exists rec ef,
    shr_fexp prec emax m e loc_Exact = (rec, ef) /\
    shr_m rec * 2 ^ (ef + 1074) = m * 2 ^ (e + 1074) /\
    0 < shr_m rec < 2 ^ 53 /\ -1074 <= ef /\
    (-1074 < ef -> 2 ^ 52 <= shr_m rec).
Proof.
  intros Hm He Hf.
  destruct (shr_fexp_shifted m e ltac:(lia)) as (rec & E & [Hs _]).
  assert (B := log2_bounds m ltac:(lia)). assert (L := Z.log2_nonneg m).
  assert (L53 : Z.log2 m <= 53).
  { destruct (Z_le_gt_dec (Z.log2 m) 53) as [|G]; [assumption|].
    assert (2 ^ 54 <= 2 ^ Z.log2 m) by (apply Z.pow_le_mono_r; lia). lia. }
  exists rec, (e + Z.max 0 (fexp64 (Z.log2 m + 1 + e) - e)).
  split; [exact E|]. rewrite Hs. unfold fexp64 in *.
  destruct (Z.eq_dec (Z.log2 m) 53) as [E53|N53].
  - (* the mantissa is 2^53 *)
    rewrite E53 in *. assert (m = 2 ^ 53) by lia. subst m.
    replace (Z.max 0 (Z.max (53 + 1 + e - 53) (-1074) - e)) with 1 by lia.
    change (2 ^ 53 / 2 ^ 1) with (2 ^ 52).
    replace (e + 1 + 1074) with (1 + (e + 1074)) by lia.
    rewrite (Z.pow_add_r 2 1 (e + 1074)) by lia.
    change (2 ^ 53) with (2 ^ 52 * 2 ^ 1).
    repeat split; try lia; try ring.
  - replace (Z.max 0 (Z.max (Z.log2 m + 1 + e - 53) (-1074) - e)) with 0 by lia.
    change (2 ^ 0) with 1. rewrite Z.div_1_r, Z.add_0_r.
    assert (U : m < 2 ^ 53).
    { eapply Z.lt_le_trans; [apply B|]. apply Z.pow_le_mono_r; lia. }
    repeat split; try lia.
    intros Hsub. assert (Z.log2 m = 52) by lia.
    replace 52 with (Z.log2 m) by assumption. lia.
Qed.

Lemma top_split a b : a + b = 2098 -> 0 <= a -> 0 <= b -> top = 2 ^ a * 2 ^ b.
Proof.
  intros E Ha Hb. unfold top. rewrite <- E. apply Z.pow_add_r; assumption.
Qed.

(** [binary_round_aux] on an exact mantissa that is not below its canonical
    exponent: the result is a number or an infinity of the given sign, with
    the value of the rounded mantissa. *)
Lemma binary_round_aux_result s M e :
  0 < M -> -1074 <= e -> e <= fexp64 (Z.log2 M + 1 + e) ->
  exists mf ef,
    binary_round_aux prec emax s M e loc_Exact
    = (if ef <=? 971 then S754_finite s mf ef else S754_infinity s) /\
    Zpos mf * 2 ^ (ef + 1074)
    = rne M (shiftc M) * 2 ^ (shiftc M + (e + 1074)) /\
    Zpos mf < 2 ^ 53 /\ -1074 <= ef /\ (-1074 < ef -> 2 ^ 52 <= Zpos mf).
Proof.
  intros HM He Hf. unfold binary_round_aux.
  destruct (shr_fexp_shifted M e HM) as (rec1 & E1 & Sh1).
  rewrite E1, (rne_shifted _ _ _ Sh1).
  assert (L := Z.log2_nonneg M).
  assert (EN : Z.max 0 (fexp64 (Z.log2 M + 1 + e) - e) = shiftc M)
    by (unfold fexp64, shiftc in *; lia).
  rewrite EN in *. clear E1 Sh1 rec1 EN.
  assert (K := shiftc_nonneg M).
  destruct (quotient_bounds M HM) as ((Q1 & Q2) & Q3).
  set (m2 := rne M (shiftc M)).
  assert (B2 : 0 < m2 <= 2 ^ 53 /\ (0 < shiftc M -> 2 ^ 52 <= m2)).
  { subst m2. destruct (rne_cases M (shiftc M) K) as [[-> _]|[-> _]]; lia. }
  destruct B2 as (B2 & B2').
  assert (Hf2 : e + shiftc M <= fexp64 (Z.log2 m2 + 1 + (e + shiftc M))).
  { destruct (Z.eq_dec (shiftc M) 0) as [Z0|NZ].
    - subst m2. rewrite Z0, rne_0, Z.add_0_r. exact Hf.
    - assert (52 <= Z.log2 m2) by (apply Z.log2_le_pow2; lia).
      unfold fexp64. lia. }
  destruct (shr_fexp_renorm m2 (e + shiftc M) B2 ltac:(lia) Hf2)
    as (rec2 & ef & E2 & V & Bm & Bef & Bn).
  rewrite E2.
  replace (e + shiftc M + 1074) with (shiftc M + (e + 1074)) in V by lia.
  destruct (shr_m rec2) as [|mf|mf]; try lia.
  exists mf, ef. change (Z.sub emax prec) with 971.
  repeat split; try assumption; lia.
Qed.

Lemma binary_round_aux_ord s M e :
  0 < M -> -1074 <= e -> e <= fexp64 (Z.log2 M + 1 + e) ->
  ord (binary_round_aux prec emax s M e loc_Exact)
  = cond_Zopp s (RNDpos (M * 2 ^ (e + 1074))).
Proof.
  intros HM He Hf.
  destruct (binary_round_aux_result s M e HM He Hf)
    as (mf & ef & -> & V & Bm & Bef & Bn).
  assert (L := Z.log2_nonneg M). assert (K := shiftc_nonneg M).
  set (j := e + 1074) in *.
  assert (Hj : 0 <= j) by (subst j; lia).
  assert (ES : shiftc (M * 2 ^ j) = shiftc M + j).
  { unfold shiftc. rewrite Z.log2_mul_pow2 by lia.
    unfold fexp64, shiftc in *. lia. }
  assert (ER : RNDpos (M * 2 ^ j)
               = Z.min top (rne M (shiftc M) * 2 ^ (shiftc M + j))).
  { unfold RNDpos. rewrite ES, rne_scale by lia. reflexivity. }
  rewrite ER, <- V.
  destruct (Z.leb_spec ef 971) as [Hfin|Hinf]; cbn [ord]; f_equal.
  - (* finite: below the overflow threshold *)
    symmetry. apply Z.min_r.
    rewrite (top_split 53 2045) by lia.
    assert (2 ^ (ef + 1074) <= 2 ^ 2045) by (apply Z.pow_le_mono_r; lia).
    assert (0 < 2 ^ (ef + 1074)) by (apply pow2_gt0; lia).
    apply Z.mul_le_mono_nonneg; lia.
  - (* overflow *)
    symmetry. apply Z.min_l.
    rewrite (top_split 52 2046) by lia.
    assert (2 ^ 2046 <= 2 ^ (ef + 1074)) by (apply Z.pow_le_mono_r; lia).
    assert (0 < 2 ^ 2046) by (apply pow2_gt0; lia).
    apply Z.mul_le_mono_nonneg; lia.
Qed.

Lemma iter_xO m d : Zpos (Pos.iter xO m d) = Zpos m * 2 ^ Zpos d.
Proof.
  induction d as [|d IH] using Pos.peano_ind.
  - cbn [Pos.iter]. rewrite Pos2Z.inj_xO. change (2 ^ 1) with 2. lia.
  - rewrite Pos.iter_succ, Pos2Z.inj_xO, IH, Pos2Z.inj_succ.
    rewrite Z.pow_succ_r by lia. ring.
Qed.

Lemma shl_align_spec m e e' :
  let '(m', e'') := shl_align m e e' in
  e'' = Z.min e e' /\ Zpos m' = Zpos m * 2 ^ (e - e'').
Proof.
  unfold shl_align. destruct (e' - e) as [|d|d] eqn:E.
  - split; [lia|]. rewrite Z.sub_diag. change (2 ^ 0) with 1. lia.
  - split; [lia|]. rewrite Z.sub_diag. change (2 ^ 0) with 1. lia.
  - split; [lia|]. rewrite iter_xO. f_equal. f_equal. lia.
Qed.

(** [binary_round] first aligns the mantissa to its canonical exponent. *)
Lemma binary_round_aligned s m e :
  -1074 <= e ->
  exists mz ez,
    binary_round prec emax s m e
    = binary_round_aux prec emax s (Zpos mz) ez loc_Exact /\
    Zpos mz * 2 ^ (ez + 1074) = Zpos m * 2 ^ (e + 1074) /\
    -1074 <= ez /\ ez <= fexp64 (Z.log2 (Zpos mz) + 1 + ez).
Proof.
  intros He. unfold binary_round.
  rewrite digits2_log2, fexp_64.
  assert (A := shl_align_spec m e (fexp64 (Z.log2 (Zpos m) + 1 + e))).
  destruct (shl_align m e (fexp64 (Z.log2 (Zpos m) + 1 + e))) as [mz ez].
  destruct A as [Ez Em].
  assert (L := Z.log2_nonneg (Zpos m)).
  assert (Hez : -1074 <= ez <= e) by (unfold fexp64 in *; lia).
  assert (P : 0 < 2 ^ (e - ez)) by (apply pow2_gt0; lia).
  exists mz, ez. repeat split; try lia.
  - rewrite Em, <- Z.mul_assoc, <- Z.pow_add_r by lia.
    f_equal. f_equal. lia.
  - rewrite Em, Z.log2_mul_pow2 by lia. unfold fexp64 in *. lia.
Qed.

Lemma binary_round_ord s m e :
  -1074 <= e ->
  ord (binary_round prec emax s m e)
  = cond_Zopp s (RNDpos (Zpos m * 2 ^ (e + 1074))).
Proof.
  intros He.
  destruct (binary_round_aligned s m e He) as (mz & ez & -> & V & Hez & Hf).
  rewrite binary_round_aux_ord by lia. rewrite V. reflexivity.
Qed.

Lemma binary_round_not_nan s m e :
  -1074 <= e -> is_nanSF (binary_round prec emax s m e) = false.
Proof.
  intros He.
  destruct (binary_round_aligned s m e He) as (mz & ez & -> & V & Hez & Hf).
  destruct (binary_round_aux_result s (Zpos mz) ez ltac:(lia) Hez Hf)
    as (mf & ef & -> & _).
  destruct (ef <=? 971); reflexivity.
Qed.

(** [binary_normalize] rounds the integer [M * 2^(e + 1074)] with [RND]. *)
Lemma binary_normalize_ord M e :
  -1074 <= e ->
  ord (binary_normalize prec emax M e false) = RND (M * 2 ^ (e + 1074)).
Proof.
  intros He. assert (P : 0 < 2 ^ (e + 1074)) by (apply pow2_gt0; lia).
  destruct M as [|m|m]; cbn [binary_normalize].
  - reflexivity.
  - rewrite binary_round_ord by assumption. cbn [cond_Zopp].
    destruct (Zpos m * 2 ^ (e + 1074)) eqn:E; try lia. reflexivity.
  - rewrite binary_round_ord by assumption. cbn [cond_Zopp].
    destruct (Zneg m * 2 ^ (e + 1074)) as [|q|q] eqn:E; try lia.
    cbn [RND]. f_equal. f_equal. lia.
Qed.

Lemma binary_normalize_not_nan M e :
  -1074 <= e -> is_nanSF (binary_normalize prec emax M e false) = false.
Proof.
  intros He. destruct M; cbn [binary_normalize];
    [reflexivity | apply binary_round_not_nan | apply binary_round_not_nan];
    assumption.
Qed.

(** *** Addition and subtraction on valid numbers *)

Definition is_number (x : spec_float) : bool :=
  match x with
  | S754_zero _ | S754_finite _ _ _ => true
  | _ => false
  end.

Lemma RND_opp a : RND (- a) = - RND a.
Proof. destruct a; cbn [RND Z.opp]; lia. Qed.

(** Representable values are not changed by rounding. *)
Lemma RNDpos_valid s m e :
  valid_binary (S754_finite s m e) = true ->
  RNDpos (Zpos m * 2 ^ (e + 1074)) = Zpos m * 2 ^ (e + 1074).
Proof.
  intros V. assert (T := valid_finite_lt_top _ _ _ V).
  apply valid_finite in V. destruct V as (He & Hd & Hn).
  assert (L := Z.log2_nonneg (Zpos m)).
  assert (ES : shiftc (Zpos m * 2 ^ (e + 1074)) = 0 + (e + 1074)).
  { unfold shiftc. rewrite Z.log2_mul_pow2 by lia. lia. }
  unfold RNDpos. rewrite ES, rne_scale, rne_0 by lia.
  rewrite Z.add_0_l. apply Z.min_r. lia.
Qed.

Lemma RND_valid x :
  valid_binary x = true -> is_number x = true -> RND (ord x) = ord x.
Proof.
  intros V N. destruct x as [s|s| |s m e]; try discriminate; [reflexivity|].
  assert (T := valid_finite_lt_top _ _ _ V).
  assert (R := RNDpos_valid s m e V). cbn [ord].
  destruct s; cbn [cond_Zopp].
  - rewrite RND_opp. f_equal.
    destruct (Zpos m * 2 ^ (e + 1074)) eqn:E; try lia. exact R.
  - destruct (Zpos m * 2 ^ (e + 1074)) eqn:E; try lia. exact R.
Qed.

Lemma aligned_value s m e ez :
  -1074 <= ez <= e ->
  cond_Zopp s (Zpos (fst (shl_align m e ez))) * 2 ^ (ez + 1074)
  = cond_Zopp s (Zpos m * 2 ^ (e + 1074)).
Proof.
  intros H. assert (A := shl_align_spec m e ez).
  destruct (shl_align m e ez) as [m' e'']. cbn [fst]. destruct A as [E ->].
  replace e'' with ez by lia.
  replace (e + 1074) with ((e - ez) + (ez + 1074)) by lia.
  rewrite (Z.pow_add_r 2 (e - ez) (ez + 1074)) by lia.
  destruct s; cbn [cond_Zopp]; ring.
Qed.

Lemma SFadd_ord x y :
  valid_binary x = true -> valid_binary y = true ->
  is_number x = true -> is_number y = true ->
  ord (SF64add x y) = RND (ord x + ord y)
  /\ is_nanSF (SF64add x y) = false.
Proof.
  intros Vx Vy Nx Ny.
  destruct x as [sx|sx| |sx mx ex], y as [sy|sy| |sy my ey]; try discriminate.
  - split; [|destruct sx, sy; reflexivity]. destruct sx, sy; reflexivity.
  - split; [|reflexivity]. cbn [SF64add SFadd]. rewrite Z.add_0_l.
    symmetry. apply RND_valid; [assumption|reflexivity].
  - split; [|reflexivity]. cbn [SF64add SFadd]. change (ord (S754_zero sy)) with 0.
    rewrite Z.add_0_r.
    symmetry. apply RND_valid; [assumption|reflexivity].
  - assert (Ex := valid_finite _ _ _ Vx). assert (Ey := valid_finite _ _ _ Vy).
    unfold SF64add, SFadd.
    split; [|apply binary_normalize_not_nan; lia].
    rewrite binary_normalize_ord by lia. f_equal.
    rewrite Z.mul_add_distr_r, !aligned_value by lia. reflexivity.
Qed.

Lemma SFsub_ord x y :
  valid_binary x = true -> valid_binary y = true ->
  is_number x = true -> is_number y = true ->
  ord (SF64sub x y) = RND (ord x - ord y)
  /\ is_nanSF (SF64sub x y) = false.
Proof.
  intros Vx Vy Nx Ny.
  destruct x as [sx|sx| |sx mx ex], y as [sy|sy| |sy my ey]; try discriminate.
  - split; [|destruct sx, sy; reflexivity]. destruct sx, sy; reflexivity.
  - split; [|reflexivity]. cbn [SF64sub SFsub].
    change (ord (S754_zero sx)) with 0. rewrite Z.sub_0_l, RND_opp.
    rewrite (RND_valid _ Vy eq_refl). cbn [ord].
    destruct sy; cbn [negb cond_Zopp]; lia.
  - split; [|reflexivity]. cbn [SF64sub SFsub]. change (ord (S754_zero sy)) with 0.
    rewrite Z.sub_0_r.
    symmetry. apply RND_valid; [assumption|reflexivity].
  - assert (Ex := valid_finite _ _ _ Vx). assert (Ey := valid_finite _ _ _ Vy).
    unfold SF64sub, SFsub.
    split; [|apply binary_normalize_not_nan; lia].
    rewrite binary_normalize_ord by lia. f_equal.
    rewrite Z.mul_sub_distr_r, !aligned_value by lia. reflexivity.
Qed.

Lemma ord_bounds x : valid_binary x = true -> - top <= ord x <= top.
Proof.
  intros V. assert (T : 0 < top) by (apply pow2_gt0; lia).
  destruct x as [s|s| |s m e]; cbn [ord]; try lia.
  - destruct s; cbn [cond_Zopp]; lia.
  - apply valid_finite_lt_top in V. destruct s; cbn [cond_Zopp]; lia.
Qed.

Lemma ord_number x :
  valid_binary x = true -> is_number x = true -> - top < ord x < top.
Proof.
  intros V N. assert (T : 0 < top) by (apply pow2_gt0; lia).
  destruct x as [s|s| |s m e]; try discriminate; cbn [ord]; try lia.
  apply valid_finite_lt_top in V. destruct s; cbn [cond_Zopp]; lia.
Qed.

Lemma SFleb_ord x y :
  valid_binary x = true -> valid_binary y = true ->
  is_nanSF x = false -> is_nanSF y = false ->
  SFleb x y = (ord x <=? ord y).
Proof.
  intros Vx Vy Nx Ny. unfold SFleb. rewrite SFcompare_ord by assumption.
  unfold Z.leb. destruct (ord x ?= ord y); reflexivity.
Qed.

Lemma SFltb_ord x y :
  valid_binary x = true -> valid_binary y = true ->
  is_nanSF x = false -> is_nanSF y = false ->
  SFltb x y = (ord x <? ord y).
Proof.
  intros Vx Vy Nx Ny. unfold SFltb. rewrite SFcompare_ord by assumption.
  unfold Z.ltb. destruct (ord x ?= ord y); reflexivity.
Qed.

Lemma not_nan_cases x :
  is_nanSF x = false ->
  is_number x = true \/ x = S754_infinity false \/ x = S754_infinity true.
Proof. destruct x as [s|[|]| |s m e]; try discriminate; auto. Qed.

Lemma SFadd_inf_l s y :
  is_nanSF (SF64add (S754_infinity s) y) = false ->
  SF64add (S754_infinity s) y = S754_infinity s.
Proof. destruct s, y as [|[|]| |]; try discriminate; reflexivity. Qed.

Lemma SFadd_inf_r s x :
  is_nanSF (SF64add x (S754_infinity s)) = false ->
  SF64add x (S754_infinity s) = S754_infinity s.
Proof. destruct s, x as [|[|]| |]; try discriminate; reflexivity. Qed.

Lemma SFadd_nan_l x y : is_nanSF (SF64add x y) = false -> is_nanSF x = false.
Proof. destruct x; try reflexivity. destruct y; discriminate. Qed.

Lemma SFadd_nan_r x y : is_nanSF (SF64add x y) = false -> is_nanSF y = false.
Proof. destruct y; try reflexivity. destruct x; discriminate. Qed.

(** Addition is monotone wherever its results are numbers or infinities. *)
Lemma SFadd_mono a b c d :
  valid_binary a = true -> valid_binary b = true ->
  valid_binary c = true -> valid_binary d = true ->
  valid_binary (SF64add a c) = true -> valid_binary (SF64add b d) = true ->
  is_nanSF (SF64add a c) = false -> is_nanSF (SF64add b d) = false ->
  SFleb a b = true -> SFleb c d = true ->
  SFleb (SF64add a c) (SF64add b d) = true.
Proof.
  intros Va Vb Vc Vd Vac Vbd Nac Nbd Hab Hcd.
  assert (T : 0 < top) by (apply pow2_gt0; lia).
  assert (Na := SFadd_nan_l _ _ Nac). assert (Nc := SFadd_nan_r _ _ Nac).
  assert (Nb := SFadd_nan_l _ _ Nbd). assert (Nd := SFadd_nan_r _ _ Nbd).
  rewrite SFleb_ord in Hab, Hcd |- * by assumption.
  apply Z.leb_le in Hab, Hcd. apply Z.leb_le.
  assert (Bac := ord_bounds _ Vac). assert (Bbd := ord_bounds _ Vbd).
  destruct (not_nan_cases a Na) as [Fa|[->| ->]];
    destruct (not_nan_cases b Nb) as [Fb|[->| ->]];
    destruct (not_nan_cases c Nc) as [Fc|[->| ->]];
    destruct (not_nan_cases d Nd) as [Fd|[->| ->]];
    try (assert (Oa := ord_number a Va Fa));
    try (assert (Ob := ord_number b Vb Fb));
    try (assert (Oc := ord_number c Vc Fc));
    try (assert (Od := ord_number d Vd Fd));
    cbn [ord cond_Zopp] in Hab, Hcd; try lia;
    rewrite ?SFadd_inf_l, ?SFadd_inf_r by assumption;
    cbn [ord cond_Zopp]; try lia.
  (* four numbers *)
  destruct (SFadd_ord a c Va Vc Fa Fc) as [-> _].
  destruct (SFadd_ord b d Vb Vd Fb Fd) as [-> _].
  apply RND_mono. lia.
Qed.

Ltac ltb_solve :=
  match goal with
  | |- (?a <? ?b) = (?c <? ?d) =>
      destruct (Z.ltb_spec a b); destruct (Z.ltb_spec c d); lia
  end.

(** The sign of a difference is the order of its operands. *)
Lemma SFsub_pos x y :
  valid_binary x = true -> valid_binary y = true ->
  valid_binary (SF64sub x y) = true ->
  is_nanSF x = false -> is_nanSF y = false ->
  SFltb (S754_zero false) (SF64sub x y) = SFltb y x.
Proof.
  intros Vx Vy Vxy Nx Ny.
  assert (T : 0 < top) by (apply pow2_gt0; lia).
  destruct (not_nan_cases x Nx) as [Fx|[->| ->]];
    destruct (not_nan_cases y Ny) as [Fy|[->| ->]];
    try reflexivity.
  - destruct (SFsub_ord x y Vx Vy Fx Fy) as [E N].
    rewrite !SFltb_ord by (assumption || reflexivity).
    rewrite E. change (ord (S754_zero false)) with 0.
    assert (S := RND_sgn (ord x - ord y)).
    ltb_solve.
  - assert (O := ord_number x Vx Fx).
    replace (SF64sub x (S754_infinity false)) with (S754_infinity true)
      by (destruct x; try discriminate; reflexivity).
    rewrite !SFltb_ord by (assumption || reflexivity).
    cbn [ord cond_Zopp]. ltb_solve.
  - assert (O := ord_number x Vx Fx).
    replace (SF64sub x (S754_infinity true)) with (S754_infinity false)
      by (destruct x; try discriminate; reflexivity).
    rewrite !SFltb_ord by (assumption || reflexivity).
    cbn [ord cond_Zopp]. ltb_solve.
  - assert (O := ord_number y Vy Fy).
    replace (SF64sub (S754_infinity false) y) with (S754_infinity false)
      by (destruct y; try discriminate; reflexivity).
    rewrite !SFltb_ord by (assumption || reflexivity).
    cbn [ord cond_Zopp]. ltb_solve.
  - assert (O := ord_number y Vy Fy).
    replace (SF64sub (S754_infinity true) y) with (S754_infinity true)
      by (destruct y; try discriminate; reflexivity).
    rewrite !SFltb_ord by (assumption || reflexivity).
    cbn [ord cond_Zopp]. ltb_solve.
Qed.

(** *** The same facts on primitive floats *)

(** The value of a number in units of [2^-1074]; the infinities are [top]
    and [- top]. *)
Definition fval (x : float) : Z := ord (Prim2SF x).

Lemma is_nan_spec x : is_nan x = is_nanSF (Prim2SF x).
Proof.
  unfold is_nan. rewrite eqb_spec. unfold SFeqb.
  assert (V := Prim2SF_valid x).
  destruct (is_nanSF (Prim2SF x)) eqn:N.
  - destruct (Prim2SF x); try discriminate. reflexivity.
  - rewrite SFcompare_ord, Z.compare_refl by assumption. reflexivity.
Qed.

Lemma leb_fval x y :
  is_nan x = false -> is_nan y = false -> (x <=? y)%float = (fval x <=? fval y).
Proof.
  rewrite !is_nan_spec, leb_spec. intros Nx Ny.
  apply SFleb_ord; auto using Prim2SF_valid.
Qed.

Lemma ltb_fval x y :
  is_nan x = false -> is_nan y = false -> (x <? y)%float = (fval x <? fval y).
Proof.
  rewrite !is_nan_spec, ltb_spec. intros Nx Ny.
  apply SFltb_ord; auto using Prim2SF_valid.
Qed.

Lemma eqb_fval x y :
  is_nan x = false -> is_nan y = false -> (x =? y)%float = (fval x =? fval y).
Proof.
  rewrite !is_nan_spec, eqb_spec. intros Nx Ny. unfold SFeqb, fval.
  rewrite SFcompare_ord by auto using Prim2SF_valid.
  destruct (Z.compare_spec (ord (Prim2SF x)) (ord (Prim2SF y))) as [E|E|E];
    destruct (Z.eqb_spec (ord (Prim2SF x)) (ord (Prim2SF y))); lia.
Qed.

Lemma add_not_nan a b :
  is_nan (a + b)%float = false -> is_nan a = false /\ is_nan b = false.
Proof.
  rewrite !is_nan_spec, add_spec. intros H. split.
  - eapply SFadd_nan_l; exact H.
  - eapply SFadd_nan_r; exact H.
Qed.

Lemma add_mono a b c d :
  is_nan (a + c)%float = false -> is_nan (b + d)%float = false ->
  (a <=? b)%float = true -> (c <=? d)%float = true ->
  (a + c <=? b + d)%float = true.
Proof.
  rewrite !is_nan_spec, !leb_spec, !add_spec. intros Nac Nbd Hab Hcd.
  apply SFadd_mono; try assumption; try apply Prim2SF_valid.
  - rewrite <- add_spec. apply Prim2SF_valid.
  - rewrite <- add_spec. apply Prim2SF_valid.
Qed.

Lemma sub_pos a b :
  is_nan a = false -> is_nan b = false ->
  (0 <? a - b)%float = (b <? a)%float.
Proof.
  rewrite !is_nan_spec, !ltb_spec, sub_spec. intros Na Nb.
  change (Prim2SF 0%float) with (S754_zero false).
  apply SFsub_pos; try assumption; try apply Prim2SF_valid.
  rewrite <- sub_spec. apply Prim2SF_valid.
Qed.

End FloatFacts.

#[global] Arguments estimates : simpl never.
#[global] Arguments majorTaskIn : simpl never.
#[global] Arguments taskCategoryIn : simpl never.
#[global] Arguments estimateSchema : simpl never.
#[global] Arguments estimateList : simpl never.
#[global] Arguments gantt : simpl never.
#[global] Arguments minorTask : simpl never.
#[global] Arguments majorTask : simpl never.
#[global] Arguments taskCategory : simpl never.
#[global] Arguments value_of_gantt : simpl never.
#[global] Arguments value_of_minorTask : simpl never.
#[global] Arguments value_of_majorTask : simpl never.
#[global] Arguments value_of_taskCategory : simpl never.
#[global] Arguments totals_of : simpl never.
#[global] Arguments Math_round : simpl never.

(** ** Reference notions used in the statements *)

(** The sum [((0 + x1) + x2) + ...] in binary64 arithmetic. *)
Definition float_sum (xs : list float) : float := fold_left PrimFloat.add xs 0.

(** The accumulated mean [((0 + x1/n) + x2/n) + ...] the reducers compute. *)
Definition float_mean_acc (xs : list float) : float :=
  fold_left (fun acc x => acc + x / float_of_Z (Z.of_nat (List.length xs))) xs 0.

(** The four numbers of a node are numbers that pass [z.number()]. *)
Definition nan_free (e : Estimates) : bool :=
  negb (is_nan (lowerEstimate e)) && negb (is_nan (higherEstimate e))
  && negb (is_nan (complexity e)) && negb (is_nan (confidence e)).

Definition wf_gantt (g : Gantt) : Prop := is_nan (position g) = false.
Definition wf_minor (t : MinorTask) : Prop := nan_free (minor_estimates t) = true.

(** ** Basic facts about the schema combinators *)

Lemma bind_Ok {A B} (r : result A) (k : A -> result B) (b : B) :
  bind r k = Ok b -> exists a, r = Ok a /\ k a = Ok b.
Proof.
  destruct r as [a|]; simpl; intros H; [exists a; auto | discriminate].
Qed.

Ltac inv_bind H :=
  let a := fresh "a" in
  let Ha := fresh "Ha" in
  apply bind_Ok in H; destruct H as (a & Ha & H).

Ltac inv_Ok H := injection H as H; subst.

Lemma mapM_Forall2 {A B} (f : A -> result B) (l : list A) (l' : list B) :
  mapM f l = Ok l' <-> Forall2 (fun x y => f x = Ok y) l l'.
Proof.
  revert l'; induction l as [|x l IH]; intros l'; simpl.
  - split; intros H.
    + inv_Ok H. constructor.
    + inversion H; reflexivity.
  - split; intros H.
    + inv_bind H. inv_bind H. inv_Ok H. constructor; [assumption|].
      apply IH; assumption.
    + inversion H as [|? y ? ys Hx Hl]; subst. rewrite Hx; simpl.
      apply IH in Hl. rewrite Hl. reflexivity.
Qed.

Lemma mapM_ShapeError {A B} (f : A -> result B) (l : list A) (x : A) :
  In x l -> f x = ShapeError -> mapM f l = ShapeError.
Proof.
  induction l as [|y l IH]; simpl; [tauto|].
  intros [->|Hin] Hx.
  - rewrite Hx. reflexivity.
  - destruct (f y); simpl; [|reflexivity]. rewrite IH by assumption. reflexivity.
Qed.

Lemma mapM_map_fixed {B} (f : value -> result B) (enc : B -> value)
    (l : list B) :
  Forall (fun y => f (enc y) = Ok y) l -> mapM f (map enc l) = Ok l.
Proof.
  induction 1 as [|y l Hy _ IH]; simpl; [reflexivity|].
  rewrite Hy; simpl. rewrite IH. reflexivity.
Qed.

Lemma z_number_Ok v x :
  z_number v = Ok x <-> v = Some (VNum x) /\ is_nan x = false.
Proof.
  unfold z_number. split.
  - destruct v as [[| | y | | |]|]; try discriminate.
    destruct (is_nan y) eqn:E; [discriminate|]. intros H; inv_Ok H. auto.
  - intros [-> ->]. reflexivity.
Qed.

Lemma z_string_Ok v s : z_string v = Ok s <-> v = Some (VStr s).
Proof.
  unfold z_string. split.
  - destruct v as [[| | | y | |]|]; try discriminate. intros H; inv_Ok H. auto.
  - intros ->. reflexivity.
Qed.

Lemma z_object_Ok {A} (shape : list (string * value) -> result A) v a :
  z_object shape v = Ok a <-> exists o, v = Some (VObj o) /\ shape o = Ok a.
Proof.
  unfold z_object. split.
  - destruct v as [[| | | | |o]|]; try discriminate. intros H. exists o; auto.
  - intros (o & -> & H). exact H.
Qed.

Lemma nan_free_true e :
  nan_free e = true <->
  is_nan (lowerEstimate e) = false /\ is_nan (higherEstimate e) = false /\
  is_nan (complexity e) = false /\ is_nan (confidence e) = false.
Proof.
  unfold nan_free. rewrite !andb_true_iff, !negb_true_iff. tauto.
Qed.

(** [estimates] succeeds exactly on objects whose four keys hold numbers
    other than [NaN], and returns those numbers. *)
Lemma estimates_Ok v e :
  estimates v = Ok e <->
  exists o, v = Some (VObj o) /\
    get "lowerEstimate" o = Some (VNum (lowerEstimate e)) /\
    get "higherEstimate" o = Some (VNum (higherEstimate e)) /\
    get "complexity" o = Some (VNum (complexity e)) /\
    get "confidence" o = Some (VNum (confidence e)) /\
    nan_free e = true.
Proof.
  unfold estimates. rewrite z_object_Ok. unfold field. split.
  - intros (o & -> & H). exists o. split; [reflexivity|].
    inv_bind H. inv_bind H. inv_bind H. inv_bind H. inv_Ok H.
    apply z_number_Ok in Ha, Ha0, Ha1, Ha2. simpl.
    rewrite nan_free_true; simpl. tauto.
  - intros (o & -> & H1 & H2 & H3 & H4 & Hn). exists o. split; [reflexivity|].
    apply nan_free_true in Hn. destruct Hn as (N1 & N2 & N3 & N4).
    rewrite H1, H2, H3, H4. simpl. rewrite N1, N2, N3, N4. simpl.
    destruct e; reflexivity.
Qed.

(** ** Leaves: [gantt] and [minorTask] *)

Lemma gantt_wf v g : gantt v = Ok g -> wf_gantt g.
Proof.
  unfold gantt. rewrite z_object_Ok. unfold field. intros (o & -> & H).
  inv_bind H. inv_bind H. inv_bind H. inv_bind H. inv_Ok H.
  apply z_number_Ok in Ha. exact (proj2 Ha).
Qed.

Lemma gantt_value_of g : wf_gantt g -> gantt (Some (value_of_gantt g)) = Ok g.
Proof.
  unfold wf_gantt. intros H. destruct g as [p s l c]; simpl in *.
  unfold gantt, value_of_gantt, field; simpl. rewrite H; simpl.
  destruct l, c; reflexivity.
Qed.

Lemma minorTask_wf v t : minorTask v = Ok t -> wf_minor t.
Proof.
  unfold minorTask, z_and. intros H.
  inv_bind H. inv_bind Ha. inv_bind Ha. inv_Ok Ha. inv_bind H. inv_Ok H.
  simpl. apply estimates_Ok in Ha1. destruct Ha1 as (o & _ & _ & _ & _ & _ & Hn).
  exact Hn.
Qed.

Lemma minorTask_value_of t :
  wf_minor t -> minorTask (Some (value_of_minorTask t)) = Ok t.
Proof.
  unfold wf_minor. destruct t as [n e c]; simpl. intros H.
  apply nan_free_true in H. destruct H as (N1 & N2 & N3 & N4).
  destruct e as [lo hi cx cf]; simpl in *.
  unfold minorTask, z_and, value_of_minorTask, estimates, field; simpl.
  rewrite N1, N2, N3, N4; simpl.
  destruct c; reflexivity.
Qed.

(** The raw keys a validated MinorTask was read from. *)
Lemma minorTask_Ok v t :
  minorTask v = Ok t ->
  exists o, v = Some (VObj o) /\
    get "name" o = Some (VStr (minor_name t)) /\
    estimates v = Ok (minor_estimates t).
Proof.
  unfold minorTask, z_and. intros H.
  inv_bind H. inv_bind Ha. inv_bind Ha. inv_Ok Ha. inv_bind H. inv_Ok H.
  simpl. apply z_object_Ok in Ha0. destruct Ha0 as (o & -> & Hn).
  unfold field in Hn. apply z_string_Ok in Hn.
  exists o. auto.
Qed.

(** ** MajorTask *)

(** [z.number()] on the four keys of an object literal that ends with
    [...totals]. *)
Definition checked {A} (totals : Estimates) (node : A) : result A :=
  if nan_free totals then Ok node else ShapeError.

Lemma checked_Ok {A} totals (node node' : A) :
  checked totals node = Ok node' <-> nan_free totals = true /\ node = node'.
Proof.
  unfold checked. destruct (nan_free totals); split.
  - intros H; inv_Ok H; auto.
  - intros [_ ->]; reflexivity.
  - discriminate.
  - intros [H _]; discriminate.
Qed.

Lemma estimates_of_fields totals :
  estimates (Some (VObj (fields_of_estimates totals))) = checked totals totals.
Proof.
  destruct totals as [lo hi cx cf].
  unfold estimates, checked, nan_free, field; simpl.
  destruct (is_nan lo), (is_nan hi), (is_nan cx), (is_nan cf); reflexivity.
Qed.

Lemma majorTaskIn_wf v i :
  majorTaskIn v = Ok i ->
  Forall wf_minor (majorIn_tasks i) /\ wf_gantt (majorIn_gantt i).
Proof.
  unfold majorTaskIn. rewrite z_object_Ok. unfold field. intros (o & -> & H).
  inv_bind H. inv_bind H. inv_bind H. inv_Ok H. simpl. split.
  - unfold z_array in Ha0. destruct (get "tasks" o) as [[| | | |items|]|];
      try discriminate.
    apply mapM_Forall2 in Ha0. clear - Ha0.
    induction Ha0 as [|x y l l' Hxy _ IH]; constructor; [|exact IH].
    eapply minorTask_wf; eassumption.
  - eapply gantt_wf; eassumption.
Qed.

Lemma mapM_minorTask_value_of ts :
  Forall wf_minor ts ->
  mapM (fun item => minorTask (Some item)) (map value_of_minorTask ts) = Ok ts.
Proof.
  intros H. apply mapM_map_fixed with (f := fun item => minorTask (Some item)).
  eapply Forall_impl; [|exact H]. intros t. apply minorTask_value_of.
Qed.

Lemma majorTaskIn_of_fields n ts g rest :
  Forall wf_minor ts -> wf_gantt g ->
  majorTaskIn
    (Some (VObj (("name", VStr n) :: ("tasks", VArr (map value_of_minorTask ts))
                 :: ("gantt", value_of_gantt g) :: rest)%string))
  = Ok (mkMajorTaskIn n ts g).
Proof.
  intros Hts Hg. unfold majorTaskIn, field; simpl.
  rewrite mapM_minorTask_value_of by assumption; simpl.
  rewrite gantt_value_of by assumption. reflexivity.
Qed.

(** The second schema of [majorTask] applied to [{...input, ...totals}]. *)
Lemma majorTask_second_stage i totals :
  Forall wf_minor (majorIn_tasks i) -> wf_gantt (majorIn_gantt i) ->
  z_and majorTaskIn estimates
    (fun i e => mkMajorTask (majorIn_name i) (majorIn_tasks i) (majorIn_gantt i) e)
    (Some (VObj (spread (fields_of_majorTaskIn i) (fields_of_estimates totals))))
  = checked totals
      (mkMajorTask (majorIn_name i) (majorIn_tasks i) (majorIn_gantt i) totals).
Proof.
  intros Hts Hg. destruct i as [n ts g]; simpl in *.
  unfold z_and. rewrite majorTaskIn_of_fields by assumption; simpl.
  match goal with
  | |- bind (estimates ?v) _ = _ =>
      change (estimates v) with (estimates (Some (VObj (fields_of_estimates totals))))
  end.
  rewrite estimates_of_fields. unfold checked.
  destruct (nan_free totals); reflexivity.
Qed.

(** [majorTask] in one step: parse, reduce, and check the totals. *)
Lemma majorTask_eq v :
  majorTask v =
  (input <- majorTaskIn v ;;
   let totals := totals_of (majorIn_tasks input) in
   checked totals
     (mkMajorTask (majorIn_name input) (majorIn_tasks input)
        (majorIn_gantt input) totals)).
Proof.
  unfold majorTask, z_preprocess.
  destruct (majorTaskIn v) as [i|] eqn:E; cbn [bind]; [|reflexivity].
  apply majorTaskIn_wf in E. destruct E as [Hts Hg].
  apply majorTask_second_stage; assumption.
Qed.

Lemma majorTask_Ok v m :
  majorTask v = Ok m <->
  majorTaskIn v = Ok (mkMajorTaskIn (major_name m) (major_tasks m) (major_gantt m))
  /\ major_estimates m = totals_of (major_tasks m)
  /\ nan_free (major_estimates m) = true.
Proof.
  rewrite majorTask_eq. split.
  - intros H. inv_bind H. simpl in H. apply checked_Ok in H.
    destruct H as [Hn <-]. simpl. destruct a; auto.
  - intros (H1 & H2 & H3). rewrite H1; simpl. apply checked_Ok.
    rewrite <- H2. split; [assumption|]. destruct m; simpl in *. congruence.
Qed.

Definition wf_major (m : MajorTask) : Prop :=
  Forall wf_minor (major_tasks m) /\ wf_gantt (major_gantt m)
  /\ major_estimates m = totals_of (major_tasks m)
  /\ nan_free (major_estimates m) = true.

Lemma majorTask_wf v m : majorTask v = Ok m -> wf_major m.
Proof.
  rewrite majorTask_Ok. intros (H1 & H2 & H3).
  apply majorTaskIn_wf in H1. simpl in H1. unfold wf_major. tauto.
Qed.

(** An aggregated MajorTask parses to itself. *)
Lemma majorTask_value_of m :
  wf_major m -> majorTask (Some (value_of_majorTask m)) = Ok m.
Proof.
  intros (Hts & Hg & He & Hn). apply majorTask_Ok. repeat split; try assumption.
  destruct m as [n ts g e]; simpl in *.
  apply majorTaskIn_of_fields; assumption.
Qed.

Lemma eqb_nan_r x k : is_nan k = true -> (x =? k) = false.
Proof.
  rewrite FloatFacts.is_nan_spec, eqb_spec. intros H.
  destruct (Prim2SF k); try discriminate. unfold SFeqb.
  destruct (Prim2SF x); reflexivity.
Qed.

(** ** Sorting by a numeric key *)

Section SortByKey.
Context {A : Type} (key : A -> float).

Let comparefn (a b : A) : float := key a - key b.

Definition key_ok (a : A) : Prop := is_nan (key a) = false.

(** [a] is not after [b] in the order of the keys. *)
Definition key_le (a b : A) : Prop := (key a <=? key b) = true.

Lemma key_le_fval a b :
  key_ok a -> key_ok b ->
  key_le a b <-> (FloatFacts.fval (key a) <= FloatFacts.fval (key b))%Z.
Proof.
  intros Ha Hb. unfold key_le. rewrite FloatFacts.leb_fval by assumption.
  apply Z.leb_le.
Qed.

Lemma comes_after_fval a b :
  key_ok a -> key_ok b ->
  comes_after comparefn a b
  = (FloatFacts.fval (key b) <? FloatFacts.fval (key a))%Z.
Proof.
  intros Ha Hb. unfold comes_after, comparefn.
  rewrite FloatFacts.sub_pos by assumption.
  apply FloatFacts.ltb_fval; assumption.
Qed.

Lemma insert_sorted_perm a l :
  Permutation (a :: l) (insert_sorted comparefn a l).
Proof.
  induction l as [|b l IH]; simpl; [reflexivity|].
  destruct (comes_after comparefn a b); [|reflexivity].
  rewrite perm_swap. apply perm_skip. exact IH.
Qed.

Lemma Array_sort_perm l : Permutation l (Array_sort comparefn l).
Proof.
  induction l as [|a l IH]; simpl; [reflexivity|].
  rewrite <- insert_sorted_perm. apply perm_skip. exact IH.
Qed.

Lemma Array_sort_Forall (P : A -> Prop) l :
  Forall P l -> Forall P (Array_sort comparefn l).
Proof.
  intros H. eapply Permutation_Forall; [apply Array_sort_perm|exact H].
Qed.

Lemma insert_sorted_sorted a l :
  key_ok a -> Forall key_ok l -> StronglySorted key_le l ->
  StronglySorted key_le (insert_sorted comparefn a l).
Proof.
  intros Ha Hl Hs. induction Hs as [|b l Hs IH Hb]; simpl.
  - repeat constructor.
  - inversion Hl as [|? ? Hkb Hl']; subst.
    rewrite comes_after_fval by assumption.
    destruct (Z.ltb_spec (FloatFacts.fval (key b)) (FloatFacts.fval (key a)))
      as [Hlt|Hge].
    + constructor; [apply IH; assumption|].
      eapply Permutation_Forall; [apply insert_sorted_perm|].
      constructor; [|exact Hb]. apply key_le_fval; [assumption..|lia].
    + assert (Hab : key_le a b) by (apply key_le_fval; assumption).
      constructor; [constructor; assumption|].
      constructor; [exact Hab|].
      rewrite Forall_forall in Hb, Hl' |- *. intros c Hc.
      specialize (Hb c Hc). specialize (Hl' c Hc).
      apply key_le_fval in Hb; [|assumption..].
      apply key_le_fval in Hab; [|assumption..].
      apply key_le_fval; [assumption..|lia].
Qed.

Lemma Array_sort_sorted l :
  Forall key_ok l -> StronglySorted key_le (Array_sort comparefn l).
Proof.
  induction 1 as [|a l Ha Hl IH]; simpl; [constructor|].
  apply insert_sorted_sorted; [assumption| |assumption].
  apply Array_sort_Forall; assumption.
Qed.

(** The tasks that share the key [k], in their order in [l]. *)
Definition with_key (k : float) (l : list A) : list A :=
  filter (fun a => key a =? k) l.

Lemma insert_sorted_with_key k a l :
  key_ok a -> Forall key_ok l -> is_nan k = false ->
  with_key k (insert_sorted comparefn a l) = with_key k (a :: l).
Proof.
  intros Ha Hl Hk. unfold with_key.
  induction Hl as [|b l Hb Hl IH]; [reflexivity|].
  cbn [insert_sorted]. rewrite comes_after_fval by assumption.
  destruct (Z.ltb_spec (FloatFacts.fval (key b)) (FloatFacts.fval (key a)))
    as [Hlt|Hge]; [|reflexivity].
  cbn [filter] in *. rewrite IH.
  rewrite !(FloatFacts.eqb_fval _ k) by assumption.
  destruct (Z.eqb_spec (FloatFacts.fval (key a)) (FloatFacts.fval k));
    destruct (Z.eqb_spec (FloatFacts.fval (key b)) (FloatFacts.fval k));
    try reflexivity; lia.
Qed.

Lemma Array_sort_with_key k l :
  Forall key_ok l -> is_nan k = false ->
  with_key k (Array_sort comparefn l) = with_key k l.
Proof.
  intros Hl Hk. induction Hl as [|a l Ha Hl IH]; [reflexivity|].
  cbn [Array_sort fold_right].
  change (fold_right (insert_sorted comparefn) [] l)
    with (Array_sort comparefn l).
  rewrite insert_sorted_with_key
    by (try assumption; apply Array_sort_Forall; assumption).
  unfold with_key in *. cbn [filter]. rewrite IH. reflexivity.
Qed.

Lemma with_key_nan k l : is_nan k = true -> with_key k l = [].
Proof.
  intros Hk. unfold with_key. induction l as [|a l IH]; [reflexivity|].
  cbn [filter]. rewrite eqb_nan_r by assumption. exact IH.
Qed.

Lemma with_key_cons k a l :
  key_ok a -> is_nan k = false ->
  with_key k (a :: l)
  = if (FloatFacts.fval (key a) =? FloatFacts.fval k)%Z
    then a :: with_key k l else with_key k l.
Proof.
  intros Ha Hk. unfold with_key. cbn [filter].
  rewrite FloatFacts.eqb_fval by assumption. reflexivity.
Qed.

Lemma with_key_above k l :
  Forall key_ok l -> is_nan k = false ->
  Forall (fun a => (FloatFacts.fval k < FloatFacts.fval (key a))%Z) l ->
  with_key k l = [].
Proof.
  intros Hl Hk Hlt. induction Hl as [|a l Ha Hl IH]; [reflexivity|].
  inversion Hlt as [|? ? Hlta Hlt']; subst.
  rewrite with_key_cons by assumption.
  destruct (Z.eqb_spec (FloatFacts.fval (key a)) (FloatFacts.fval k)); [lia|].
  apply IH. assumption.
Qed.

Lemma sorted_head_least a l :
  key_ok a -> Forall key_ok l -> StronglySorted key_le (a :: l) ->
  Forall (fun b => (FloatFacts.fval (key a) <= FloatFacts.fval (key b))%Z) l.
Proof.
  intros Ha Hl Hs. inversion Hs as [|? ? _ Hal]; subst.
  rewrite Forall_forall in Hal, Hl |- *. intros b Hb.
  apply key_le_fval; [assumption|apply Hl; exact Hb|apply Hal; exact Hb].
Qed.

(** A list in the order of the keys in which the elements with equal keys
    stand as they stood in [l] is determined by [l]: every stable sort
    returns the same list. *)
Lemma stable_sorted_unique l1 l2 :
  Forall key_ok l1 -> Forall key_ok l2 ->
  StronglySorted key_le l1 -> StronglySorted key_le l2 ->
  (forall k, with_key k l1 = with_key k l2) -> l1 = l2.
Proof.
  intros H1. revert l2. induction H1 as [|a l1 Ha H1 IH]; intros l2 H2 S1 S2 E.
  - destruct l2 as [|b l2]; [reflexivity|]. inversion H2 as [|? ? Hb _]; subst.
    specialize (E (key b)). rewrite with_key_cons in E by assumption.
    rewrite Z.eqb_refl in E. discriminate E.
  - destruct l2 as [|b l2].
    { specialize (E (key a)). rewrite with_key_cons in E by assumption.
      rewrite Z.eqb_refl in E. discriminate E. }
    inversion H2 as [|? ? Hb H2']; subst.
    assert (L1 := sorted_head_least a l1 Ha H1 S1).
    assert (L2 := sorted_head_least b l2 Hb H2' S2).
    assert (Eab : FloatFacts.fval (key a) = FloatFacts.fval (key b)).
    { destruct (Z.lt_total (FloatFacts.fval (key a)) (FloatFacts.fval (key b)))
        as [Hlt|[Heq|Hgt]]; [|exact Heq|].
      - specialize (E (key a)). rewrite (with_key_cons _ a) in E by assumption.
        rewrite Z.eqb_refl in E.
        rewrite (with_key_above (key a) (b :: l2)) in E; [discriminate E| | |].
        + constructor; assumption.
        + exact Ha.
        + constructor; [exact Hlt|].
          eapply Forall_impl; [|exact L2]. cbv beta. intros c Hc. lia.
      - specialize (E (key b)). rewrite (with_key_cons _ b) in E by assumption.
        rewrite Z.eqb_refl in E.
        rewrite (with_key_above (key b) (a :: l1)) in E; [discriminate E| | |].
        + constructor; assumption.
        + exact Hb.
        + constructor; [lia|].
          eapply Forall_impl; [|exact L1]. cbv beta. intros c Hc. lia. }
    assert (Et : forall k, with_key k l1 = with_key k l2 /\
                           (is_nan k = false ->
                            FloatFacts.fval (key a) = FloatFacts.fval k -> a = b)).
    { intros k. specialize (E k). destruct (is_nan k) eqn:Hk.
      - rewrite !with_key_nan by assumption. split; [reflexivity|discriminate].
      - rewrite !with_key_cons in E by assumption. rewrite <- Eab in E.
        destruct (Z.eqb_spec (FloatFacts.fval (key a)) (FloatFacts.fval k))
          as [Ek|Ek].
        + injection E as -> E. split; [exact E|reflexivity].
        + split; [exact E|]. intros _ Hc. contradiction. }
    assert (a = b) by (apply (proj2 (Et (key a))); [exact Ha|reflexivity]).
    subst b. f_equal.
    inversion S1; inversion S2; subst.
    apply IH; try assumption. intros k. apply (Et k).
Qed.

(** So [Array_sort] returns what any stable sort returns. *)
Lemma Array_sort_unique l l' :
  Forall key_ok l -> Forall key_ok l' -> StronglySorted key_le l' ->
  (forall k, with_key k l' = with_key k l) ->
  l' = Array_sort comparefn l.
Proof.
  intros Hl Hl' Hs E. apply stable_sorted_unique; try assumption.
  - apply Array_sort_Forall. exact Hl.
  - apply Array_sort_sorted. exact Hl.
  - intros k. rewrite E. destruct (is_nan k) eqn:Hk.
    + rewrite !with_key_nan by assumption. reflexivity.
    + symmetry. apply Array_sort_with_key; assumption.
Qed.

(** Sorting a list that is already in order changes nothing. *)
Lemma Array_sort_id l :
  Forall key_ok l -> StronglySorted key_le l -> Array_sort comparefn l = l.
Proof.
  intros Hl Hs. induction Hs as [|a l Hs IH Ha]; [reflexivity|].
  inversion Hl as [|? ? Hka Hl']; subst.
  cbn [Array_sort fold_right].
  change (fold_right (insert_sorted comparefn) [] l)
    with (Array_sort comparefn l).
  rewrite IH by assumption.
  destruct l as [|b l]; [reflexivity|]. cbn [insert_sorted].
  inversion Ha as [|? ? Hab _]; subst. inversion Hl' as [|? ? Hkb _]; subst.
  rewrite comes_after_fval by assumption.
  apply key_le_fval in Hab; [|assumption..].
  destruct (Z.ltb_spec (FloatFacts.fval (key b)) (FloatFacts.fval (key a)));
    [lia|reflexivity].
Qed.
End SortByKey.

(** ** TaskCategory *)

Definition major_position (m : MajorTask) : float := position (major_gantt m).

Lemma wf_major_key_ok m : wf_major m -> key_ok major_position m.
Proof. intros (_ & Hg & _). exact Hg. Qed.

Lemma mapM_majorTask_wf items ms :
  mapM (fun item => majorTask (Some item)) items = Ok ms -> Forall wf_major ms.
Proof.
  intros H. apply mapM_Forall2 in H.
  induction H as [|x y l l' Hxy _ IH]; constructor; [|exact IH].
  eapply majorTask_wf; eassumption.
Qed.

Lemma taskCategoryIn_wf v i :
  taskCategoryIn v = Ok i -> Forall wf_major (categoryIn_tasks i).
Proof.
  unfold taskCategoryIn. rewrite z_object_Ok. unfold field. intros (o & -> & H).
  inv_bind H. inv_bind H. inv_Ok H. simpl.
  unfold z_array in Ha0. destruct (get "tasks" o) as [[| | | |items|]|];
    try discriminate.
  eapply mapM_majorTask_wf; eassumption.
Qed.

Lemma mapM_majorTask_value_of ms :
  Forall wf_major ms ->
  mapM (fun item => majorTask (Some item)) (map value_of_majorTask ms) = Ok ms.
Proof.
  intros H. apply mapM_map_fixed with (f := fun item => majorTask (Some item)).
  eapply Forall_impl; [|exact H]. intros m. apply majorTask_value_of.
Qed.

Lemma taskCategoryIn_of_fields n ms rest :
  Forall wf_major ms ->
  taskCategoryIn
    (Some (VObj (("name", VStr n) :: ("tasks", VArr (map value_of_majorTask ms))
                 :: rest)%string))
  = Ok (mkTaskCategoryIn n ms).
Proof.
  intros Hms. unfold taskCategoryIn, field; simpl.
  rewrite mapM_majorTask_value_of by assumption. reflexivity.
Qed.

Lemma spread_taskCategoryIn i totals :
  spread (fields_of_taskCategoryIn i) (fields_of_estimates totals)
  = fields_of_taskCategoryIn i ++ fields_of_estimates totals.
Proof. reflexivity. Qed.

(** [taskCategory] in one step: parse, reduce in input order, sort, and
    check the totals. *)
Lemma taskCategory_eq v :
  taskCategory v =
  (input <- taskCategoryIn v ;;
   let totals := totals_of (categoryIn_tasks input) in
   checked totals
     (mkTaskCategory (categoryIn_name input)
        (Array_sort by_position (categoryIn_tasks input)) totals)).
Proof.
  unfold taskCategory, z_preprocess.
  destruct (taskCategoryIn v) as [i|] eqn:E; cbn [bind]; [|reflexivity].
  apply taskCategoryIn_wf in E. destruct i as [n ms]; cbn [categoryIn_name
    categoryIn_tasks] in *.
  generalize (totals_of ms). intros totals.
  assert (Hs : Forall wf_major (Array_sort by_position ms))
    by (apply (Array_sort_Forall major_position); assumption).
  unfold z_and. rewrite spread_taskCategoryIn.
  cbn [fields_of_taskCategoryIn categoryIn_name categoryIn_tasks app].
  rewrite taskCategoryIn_of_fields by assumption. cbn [bind].
  match goal with
  | |- bind (estimates ?v) _ = _ =>
      change (estimates v) with (estimates (Some (VObj (fields_of_estimates totals))))
  end.
  rewrite estimates_of_fields. unfold checked.
  destruct (nan_free totals); reflexivity.
Qed.

(** What holds of every TaskCategory that [taskCategory] returns. *)
Definition wf_category (c : TaskCategory) : Prop :=
  Forall wf_major (category_tasks c)
  /\ StronglySorted (key_le major_position) (category_tasks c)
  /\ nan_free (category_estimates c) = true
  /\ exists ms, Permutation ms (category_tasks c)
                /\ category_estimates c = totals_of ms.

Lemma taskCategory_Ok v c :
  taskCategory v = Ok c <->
  exists input,
    taskCategoryIn v = Ok input /\
    category_name c = categoryIn_name input /\
    category_tasks c = Array_sort by_position (categoryIn_tasks input) /\
    category_estimates c = totals_of (categoryIn_tasks input) /\
    nan_free (category_estimates c) = true.
Proof.
  rewrite taskCategory_eq. split.
  - intros H. inv_bind H. cbn zeta in H. apply checked_Ok in H.
    destruct H as [Hn <-]. exists a. cbn. auto.
  - intros (input & -> & H1 & H2 & H3 & H4). cbn [bind]. cbn zeta.
    apply checked_Ok. rewrite <- H3. split; [assumption|].
    destruct c; cbn in *. congruence.
Qed.

Lemma taskCategory_wf v c : taskCategory v = Ok c -> wf_category c.
Proof.
  rewrite taskCategory_Ok. intros (input & Hi & _ & Ht & He & Hn).
  apply taskCategoryIn_wf in Hi. unfold wf_category. rewrite Ht.
  split; [|split; [|split; [assumption|]]].
  - apply (Array_sort_Forall major_position); assumption.
  - apply (Array_sort_sorted major_position).
    eapply Forall_impl; [|exact Hi]. apply wf_major_key_ok.
  - exists (categoryIn_tasks input). split; [|exact He].
    apply (Array_sort_perm major_position).
Qed.

(** The category as the second validation of the plan derives it again:
    same name and tasks, totals reduced from the tasks in their sorted
    order. *)
Definition rederived (c : TaskCategory) : TaskCategory :=
  mkTaskCategory (category_name c) (category_tasks c)
    (totals_of (category_tasks c)).

Lemma taskCategory_value_of c :
  wf_category c ->
  taskCategory (Some (value_of_taskCategory c))
  = checked (totals_of (category_tasks c)) (rederived c).
Proof.
  intros (Hms & Hs & _). rewrite taskCategory_eq.
  destruct c as [n ms e]; cbn [category_name category_tasks] in *.
  unfold value_of_taskCategory. cbn [category_name category_tasks app].
  rewrite taskCategoryIn_of_fields by assumption. cbn [bind]. cbn zeta.
  cbn [categoryIn_name categoryIn_tasks].
  rewrite (Array_sort_id major_position); [reflexivity| |assumption].
  eapply Forall_impl; [|exact Hms]. apply wf_major_key_ok.
Qed.

Lemma rederived_wf c :
  wf_category c -> nan_free (totals_of (category_tasks c)) = true ->
  wf_category (rederived c).
Proof.
  intros (H1 & H2 & _) H3. repeat split; try assumption.
  exists (category_tasks c). split; reflexivity.
Qed.

(** ** The plan *)

Lemma mapM_taskCategory_wf items cs :
  mapM (fun item => taskCategory (Some item)) items = Ok cs ->
  Forall wf_category cs.
Proof.
  intros H. apply mapM_Forall2 in H.
  induction H as [|x y l l' Hxy _ IH]; constructor; [|exact IH].
  eapply taskCategory_wf; eassumption.
Qed.

Lemma estimateSchema_Ok v i :
  estimateSchema v = Ok i <->
  exists o items,
    v = Some (VObj o) /\ get "estimates" o = Some (VArr items) /\
    mapM (fun item => taskCategory (Some item)) items = Ok (schema_estimates i).
Proof.
  unfold estimateSchema. rewrite z_object_Ok. unfold field, z_array. split.
  - intros (o & -> & H). inv_bind H. inv_Ok H.
    destruct (get "estimates" o) as [[| | | |items|]|] eqn:G; try discriminate.
    exists o, items. split; [reflexivity|]. split; [exact G|exact Ha].
  - intros (o & items & -> & E & H). exists o. split; [reflexivity|].
    rewrite E, H. destruct i; reflexivity.
Qed.

Lemma estimateSchema_wf v i :
  estimateSchema v = Ok i -> Forall wf_category (schema_estimates i).
Proof.
  rewrite estimateSchema_Ok. intros (o & items & _ & _ & H).
  eapply mapM_taskCategory_wf; eassumption.
Qed.

(** Validating categories that were aggregated before derives each of them
    again. *)
Definition rederive_all (cs : list TaskCategory) : result (list TaskCategory) :=
  mapM (fun c => checked (totals_of (category_tasks c)) (rederived c)) cs.

Lemma rederive_all_Ok cs cs' :
  rederive_all cs = Ok cs' <->
  Forall (fun c => nan_free (totals_of (category_tasks c)) = true) cs
  /\ cs' = map rederived cs.
Proof.
  unfold rederive_all. rewrite mapM_Forall2. split.
  - induction 1 as [|c c' l l' H _ IH]; [split; [constructor|reflexivity]|].
    apply checked_Ok in H. destruct H as [Hn <-]. destruct IH as [IH1 ->].
    split; [constructor; assumption|reflexivity].
  - intros [H ->]. induction H as [|c l Hc _ IH]; constructor; [|exact IH].
    apply checked_Ok. auto.
Qed.

Lemma mapM_taskCategory_value_of cs :
  Forall wf_category cs ->
  mapM (fun item => taskCategory (Some item)) (map value_of_taskCategory cs)
  = rederive_all cs.
Proof.
  unfold rederive_all.
  induction 1 as [|c l Hc _ IH]; [reflexivity|].
  cbn [map mapM]. rewrite taskCategory_value_of by assumption. rewrite IH.
  reflexivity.
Qed.

Lemma estimateSchema_of_fields cs rest :
  Forall wf_category cs ->
  estimateSchema
    (Some (VObj (("estimates", VArr (map value_of_taskCategory cs)) :: rest)%string))
  = (cs' <- rederive_all cs ;; Ok (mkEstimateSchema cs')).
Proof.
  intros H. unfold estimateSchema, field; simpl.
  rewrite mapM_taskCategory_value_of by assumption. reflexivity.
Qed.

Lemma spread_estimateSchema i totals :
  spread (fields_of_estimateSchema i) (fields_of_estimates totals)
  = fields_of_estimateSchema i ++ fields_of_estimates totals.
Proof. reflexivity. Qed.

(** [estimateList] in one step: parse, reduce, validate the categories once
    more (which derives them again), and check the totals. *)
Lemma estimateList_eq v :
  estimateList v =
  (input <- estimateSchema v ;;
   let totals := totals_of (schema_estimates input) in
   cs' <- rederive_all (schema_estimates input) ;;
   checked totals (mkEstimateList cs' totals)).
Proof.
  unfold estimateList, z_preprocess.
  destruct (estimateSchema v) as [i|] eqn:E; cbn [bind]; [|reflexivity].
  apply estimateSchema_wf in E. destruct i as [cs]; cbn [schema_estimates] in *.
  generalize (totals_of cs). intros totals. cbn zeta.
  unfold z_and. rewrite spread_estimateSchema.
  cbn [fields_of_estimateSchema schema_estimates app].
  rewrite estimateSchema_of_fields by assumption.
  destruct (rederive_all cs) as [cs'|]; cbn [bind]; [|reflexivity].
  match goal with
  | |- bind (estimates ?v) _ = _ =>
      change (estimates v) with (estimates (Some (VObj (fields_of_estimates totals))))
  end.
  rewrite estimates_of_fields. unfold checked.
  destruct (nan_free totals); reflexivity.
Qed.

Lemma estimateList_Ok v p :
  estimateList v = Ok p <->
  exists input,
    estimateSchema v = Ok input /\
    plan_estimates p = map rederived (schema_estimates input) /\
    Forall (fun c => nan_free (totals_of (category_tasks c)) = true)
      (schema_estimates input) /\
    plan_totals p = totals_of (schema_estimates input) /\
    nan_free (plan_totals p) = true.
Proof.
  rewrite estimateList_eq. split.
  - intros H. inv_bind H. cbn zeta in H. inv_bind H.
    apply rederive_all_Ok in Ha0. destruct Ha0 as [Hn ->].
    apply checked_Ok in H. destruct H as [Ht <-]. exists a. cbn. auto.
  - intros (input & -> & H1 & H2 & H3 & H4). cbn [bind]. cbn zeta.
    assert (R : rederive_all (schema_estimates input)
                = Ok (map rederived (schema_estimates input)))
      by (apply rederive_all_Ok; auto).
    rewrite R. cbn [bind]. apply checked_Ok. rewrite <- H3.
    split; [assumption|]. destruct p; cbn in *. congruence.
Qed.

(** ** What the reducer computes *)

Section Totals.
Context {A : Type} `{HasEstimates A}.

Definition lowers (l : list A) : list float :=
  map (fun t => lowerEstimate (estimatesOf t)) l.
Definition highers (l : list A) : list float :=
  map (fun t => higherEstimate (estimatesOf t)) l.
Definition complexities (l : list A) : list float :=
  map (fun t => complexity (estimatesOf t)) l.
Definition confidences (l : list A) : list float :=
  map (fun t => confidence (estimatesOf t)) l.

Lemma fold_add_task n (l : list A) acc :
  fold_left (add_task n) l acc
  = mkEstimates
      (fold_left PrimFloat.add (lowers l) (lowerEstimate acc))
      (fold_left PrimFloat.add (highers l) (higherEstimate acc))
      (fold_left (fun a x => a + x / n) (complexities l) (complexity acc))
      (fold_left (fun a x => a + x / n) (confidences l) (confidence acc)).
Proof.
  revert acc. induction l as [|t l IH]; intros acc; simpl.
  - destruct acc; reflexivity.
  - rewrite IH. reflexivity.
Qed.

Lemma totals_of_eq (l : list A) :
  totals_of l
  = mkEstimates (float_sum (lowers l)) (float_sum (highers l))
      (Math_round (float_mean_acc (complexities l)))
      (Math_round (float_mean_acc (confidences l))).
Proof.
  unfold totals_of. rewrite fold_add_task. simpl.
  unfold float_sum, float_mean_acc, length_number, complexities, confidences.
  rewrite !length_map. reflexivity.
Qed.

Lemma totals_of_nil : totals_of (@nil A) = mkEstimates 0 0 0 0.
Proof. reflexivity. Qed.
End Totals.

(** ** Example documents *)

Definition raw_minor (n : string) (lo hi cx cf : float) : value :=
  VObj [("name", VStr n); ("lowerEstimate", VNum lo);
        ("higherEstimate", VNum hi); ("complexity", VNum cx);
        ("confidence", VNum cf)]%string.

Definition raw_major (n : string) (pos : float) (ts : list value) : value :=
  VObj [("name", VStr n); ("tasks", VArr ts);
        ("gantt", VObj [("position", VNum pos); ("start", VStr "2024-01-01")])]%string.

Definition raw_category (n : string) (ts : list value) : value :=
  VObj [("name", VStr n); ("tasks", VArr ts)]%string.

Definition raw_plan (cs : list value) : value :=
  VObj [("estimates", VArr cs)]%string.

(** One category whose three MajorTasks are listed against their
    [gantt.position] and carry the lower estimates 0.1, 0.2 and 0.3. *)
Definition plan_out_of_order : value :=
  raw_plan [raw_category "backend"
    [raw_major "api" 3 [raw_minor "routes" 0.1 4 3 4];
     raw_major "db" 2 [raw_minor "schema" 0.2 4 3 4];
     raw_major "auth" 1 [raw_minor "login" 0.3 4 3 4]]].

(** The end-to-end example of the specification: one category, one
    MajorTask, two MinorTasks. *)
Definition plan_single : value :=
  raw_plan [raw_category "frontend"
    [raw_major "pages" 1
       [raw_minor "home" 2 4 3 4; raw_minor "about" 1 2 5 2]]].

(** The validation of the callback's result can fail: two MinorTasks that
    validate, with the lower estimates [Infinity] and [-Infinity] ([1e999]
    and [-1e999] in JSON), sum to [NaN], which [z.number()] rejects. *)
Lemma nan_total_fails :
  majorTask
    (Some (raw_major "unbounded" 1
             [raw_minor "a" infinity 1 3 4; raw_minor "b" neg_infinity 1 3 4]))
  = ShapeError.
Proof. vm_compute. reflexivity. Qed.

Definition the_plan (r : result EstimateList) : EstimateList :=
  match r with
  | Ok p => p
  | ShapeError => mkEstimateList [] (mkEstimates 0 0 0 0)
  end.

(** ** C1: lower and higher estimates are sums *)

(** The exact sum of numbers, in units of [2^-1074]. *)
Definition exact_sum (xs : list float) : Z :=
  fold_right Z.add 0%Z (map FloatFacts.fval xs).

(** C1 as the specification states it, for one node and its children. *)
Definition sums_exactly {A} `{HasEstimates A} (node : Estimates)
    (children : list A) : Prop :=
  FloatFacts.fval (lowerEstimate node) = exact_sum (lowers children) /\
  FloatFacts.fval (higherEstimate node) = exact_sum (highers children).

(** A MajorTask whose two MinorTasks have the lower estimates 0.1 and 0.2
    and the higher estimates 0.7 and 0.1. *)
Definition major_tenths : value :=
  raw_major "tenths" 1
    [raw_minor "a" 0.1 0.7 3 4; raw_minor "b" 0.2 0.1 3 4].

(** C1 (as stated) fails: for the lower estimates 0.1 and 0.2 the derived
    [lowerEstimate] is 0.30000000000000004 and for the higher estimates 0.7
    and 0.1 the derived [higherEstimate] is 0.7999999999999999; neither is
    the exact sum of the two numbers. *)
Lemma C1_counterexample :
  exists m,
    majorTask (Some major_tenths) = Ok m /\
    lowers (major_tasks m) = [0.1; 0.2] /\
    lowerEstimate (major_estimates m) = 0.30000000000000004 /\
    higherEstimate (major_estimates m) = 0.79999999999999993 /\
    ~ sums_exactly (major_estimates m) (major_tasks m).
Proof.
  eexists. split; [vm_compute; reflexivity|].
  split; [reflexivity|]. split; [reflexivity|]. split; [reflexivity|].
  intros [H _]. vm_compute in H. discriminate H.
Qed.

(** Nor is the plan's total the sum of the totals of the categories in the
    output: the plan of [plan_out_of_order] has the lower estimate
    0.6000000000000001, its only category 0.6. *)
Lemma plan_total_and_category_total :
  exists p c,
    estimateList (Some plan_out_of_order) = Ok p /\
    plan_estimates p = [c] /\
    lowerEstimate (plan_totals p) = 0.60000000000000009 /\
    lowerEstimate (category_estimates c) = 0.59999999999999998.
Proof.
  eexists. eexists. split; [vm_compute; reflexivity|].
  repeat split; reflexivity.
Qed.

(** C1 (amended): at every level the derived [lowerEstimate] and
    [higherEstimate] are the binary64 sums [((0 + x1) + x2) + ...] of the
    children's values, taken over the children as validated from the raw
    node, in input order.  A category's output tasks are a permutation of
    those children; the plan's output categories are those children derived
    again. *)
Theorem C1_sums_of_validated_children (v : option value) :
  (forall m, majorTask v = Ok m ->
     lowerEstimate (major_estimates m) = float_sum (lowers (major_tasks m)) /\
     higherEstimate (major_estimates m) = float_sum (highers (major_tasks m)))
  /\
  (forall c, taskCategory v = Ok c ->
     exists input,
       taskCategoryIn v = Ok input /\
       Permutation (categoryIn_tasks input) (category_tasks c) /\
       lowerEstimate (category_estimates c)
       = float_sum (lowers (categoryIn_tasks input)) /\
       higherEstimate (category_estimates c)
       = float_sum (highers (categoryIn_tasks input)))
  /\
  (forall p, estimateList v = Ok p ->
     exists input,
       estimateSchema v = Ok input /\
       plan_estimates p = map rederived (schema_estimates input) /\
       lowerEstimate (plan_totals p)
       = float_sum (lowers (schema_estimates input)) /\
       higherEstimate (plan_totals p)
       = float_sum (highers (schema_estimates input))).
Proof.
  split; [|split].
  - intros m Hm. apply majorTask_Ok in Hm. destruct Hm as (_ & -> & _).
    rewrite totals_of_eq. split; reflexivity.
  - intros c Hc. apply taskCategory_Ok in Hc.
    destruct Hc as (input & Hi & _ & Ht & -> & _).
    exists input. rewrite Ht, totals_of_eq.
    repeat split; [assumption|]. apply (Array_sort_perm major_position).
  - intros p Hp. apply estimateList_Ok in Hp.
    destruct Hp as (input & Hi & Hc & _ & -> & _).
    exists input. rewrite totals_of_eq. repeat split; assumption.
Qed.

(** On [plan_single] the three levels carry the sums 3 and 6. *)
Lemma C1_witness :
  exists p input,
    estimateList (Some plan_single) = Ok p /\
    estimateSchema (Some plan_single) = Ok input /\
    lowerEstimate (plan_totals p) = float_sum (lowers (schema_estimates input)) /\
    lowerEstimate (plan_totals p) = 3 /\ higherEstimate (plan_totals p) = 6.
Proof.
  destruct (C1_sums_of_validated_children (Some plan_single)) as (_ & _ & H).
  specialize (H (the_plan (estimateList (Some plan_single)))).
  destruct H as (input & Hi & _ & Hl & _); [vm_compute; reflexivity|].
  exists (the_plan (estimateList (Some plan_single))), input.
  split; [vm_compute; reflexivity|].
  split; [exact Hi|]. split; [exact Hl|].
  split; vm_compute; reflexivity.
Defined.

(** ** C2: complexity and confidence are rounded means *)

(** The arithmetic mean of numbers, computed exactly and rounded to the
    nearest integer, a tie going to the larger one ([Math.round]'s rule):
    [floor (sum / n + 1/2)], with the sum in units of [2^-1074]. *)
Definition rounded_mean (xs : list float) : Z :=
  let n := Z.of_nat (List.length xs) in
  let unit := (2 ^ 1074)%Z in
  ((2 * exact_sum xs + n * unit) / (2 * n * unit))%Z.

(** A MajorTask with six MinorTasks of complexity 1, 1, 1, 2, 2, 2. *)
Definition major_six : value :=
  raw_major "six" 1
    (map (fun cx => raw_minor "t" 1 2 cx 3) [1; 1; 1; 2; 2; 2]).

(** What the reducer leaves in [complexity] and [confidence] at every
    level: [Math.round] of the accumulated [x1/n + x2/n + ...]. *)
Lemma complexity_of_totals {A} `{HasEstimates A} (l : list A) :
  complexity (totals_of l) = Math_round (float_mean_acc (complexities l)) /\
  confidence (totals_of l) = Math_round (float_mean_acc (confidences l)).
Proof. rewrite totals_of_eq. split; reflexivity. Qed.

(** C2 (the code at the failing input): the six complexities have the mean
    1.5, which rounds to 2; the reducer accumulates 1.4999999999999998 and
    returns 1. *)
Lemma C2_six_children_round_down :
  exists m,
    majorTask (Some major_six) = Ok m /\
    complexities (major_tasks m) = [1; 1; 1; 2; 2; 2] /\
    rounded_mean (complexities (major_tasks m)) = 2%Z /\
    float_mean_acc (complexities (major_tasks m)) = 1.4999999999999998 /\
    complexity (major_estimates m) = 1.
Proof.
  eexists. split; [vm_compute; reflexivity|].
  repeat split; vm_compute; reflexivity.
Qed.

(** The two examples of the specification do hold. *)
Lemma complexity_examples :
  Math_round (float_mean_acc [1; 2]) = 2 /\
  Math_round (float_mean_acc [2; 3; 4]) = 3 /\
  rounded_mean [1; 2] = 2%Z /\ rounded_mean [2; 3; 4] = 3%Z.
Proof. repeat split; vm_compute; reflexivity. Qed.

(** All lists over [scores] of length [n]. *)
Fixpoint lists_of (scores : list Z) (n : nat) : list (list Z) :=
  match n with
  | O => [[]]
  | S n' => flat_map (fun zs => map (fun z => z :: zs) scores) (lists_of scores n')
  end.

(** The rounded mean of integer scores: [floor (sum / n + 1/2)]. *)
Definition rounded_mean_of_integers (zs : list Z) : Z :=
  let n := Z.of_nat (List.length zs) in
  ((2 * fold_right Z.add 0 zs + n) / (2 * n))%Z.

Definition agrees_with_mean (zs : list Z) : bool :=
  Math_round (float_mean_acc (map float_of_Z zs))
  =? float_of_Z (rounded_mean_of_integers zs).

(** With one to five children whose scores are integers from 1 to 5, the
    reducer does return the rounded mean. *)
Lemma rounded_mean_up_to_five_children :
  forallb (fun n => forallb agrees_with_mean (lists_of [1; 2; 3; 4; 5]%Z n))
    [1; 2; 3; 4; 5]%nat = true.
Proof. vm_compute. reflexivity. Qed.

(** With six children it may not. *)
Lemma rounded_mean_six_children :
  agrees_with_mean [1; 1; 1; 2; 2; 2]%Z = false.
Proof. vm_compute. reflexivity. Qed.

(** ** C3: a shape failure anywhere fails the whole parse *)

Lemma z_array_Ok {A} (s : schema A) v l :
  z_array s v = Ok l <->
  exists items, v = Some (VArr items) /\
    Forall2 (fun item y => s (Some item) = Ok y) items l.
Proof.
  unfold z_array. split.
  - destruct v as [[| | | |items|]|]; try discriminate. intros H.
    exists items. split; [reflexivity|]. apply mapM_Forall2 in H. exact H.
  - intros (items & -> & H). apply mapM_Forall2. exact H.
Qed.

Lemma majorTaskIn_Ok v i :
  majorTaskIn v = Ok i <->
  exists o, v = Some (VObj o) /\
    z_string (get "name" o) = Ok (majorIn_name i) /\
    z_array minorTask (get "tasks" o) = Ok (majorIn_tasks i) /\
    gantt (get "gantt" o) = Ok (majorIn_gantt i).
Proof.
  unfold majorTaskIn. rewrite z_object_Ok. unfold field. split.
  - intros (o & -> & H). inv_bind H. inv_bind H. inv_bind H. inv_Ok H.
    exists o. auto.
  - intros (o & -> & H1 & H2 & H3). exists o. split; [reflexivity|].
    rewrite H1, H2, H3. destruct i; reflexivity.
Qed.

Lemma taskCategoryIn_Ok v i :
  taskCategoryIn v = Ok i <->
  exists o, v = Some (VObj o) /\
    z_string (get "name" o) = Ok (categoryIn_name i) /\
    z_array majorTask (get "tasks" o) = Ok (categoryIn_tasks i).
Proof.
  unfold taskCategoryIn. rewrite z_object_Ok. unfold field. split.
  - intros (o & -> & H). inv_bind H. inv_bind H. inv_Ok H. exists o. auto.
  - intros (o & -> & H1 & H2). exists o. split; [reflexivity|].
    rewrite H1, H2. destruct i; reflexivity.
Qed.

Lemma not_Ok_ShapeError {A} (r : result A) :
  (forall a, r <> Ok a) -> r = ShapeError.
Proof. destruct r as [a|]; [intros H; destruct (H a eq_refl)|reflexivity]. Qed.

(** A raw MajorTask that does not have the shape of [majorTaskIn]. *)
Inductive invalid_major : value -> Prop :=
| major_not_object v :
    (forall o, v <> VObj o) -> invalid_major v
| major_bad_name o :
    z_string (get "name" o) = ShapeError -> invalid_major (VObj o)
| major_bad_gantt o :
    gantt (get "gantt" o) = ShapeError -> invalid_major (VObj o)
| major_tasks_not_array o :
    (forall items, get "tasks" o <> Some (VArr items)) -> invalid_major (VObj o)
| major_bad_minor o items t :
    get "tasks" o = Some (VArr items) -> In t items ->
    minorTask (Some t) = ShapeError -> invalid_major (VObj o).

Inductive invalid_category : value -> Prop :=
| category_not_object v :
    (forall o, v <> VObj o) -> invalid_category v
| category_bad_name o :
    z_string (get "name" o) = ShapeError -> invalid_category (VObj o)
| category_tasks_not_array o :
    (forall items, get "tasks" o <> Some (VArr items)) ->
    invalid_category (VObj o)
| category_bad_major o items m :
    get "tasks" o = Some (VArr items) -> In m items ->
    invalid_major m -> invalid_category (VObj o).

Inductive invalid_plan : value -> Prop :=
| plan_not_object v :
    (forall o, v <> VObj o) -> invalid_plan v
| plan_estimates_not_array o :
    (forall items, get "estimates" o <> Some (VArr items)) ->
    invalid_plan (VObj o)
| plan_bad_category o items c :
    get "estimates" o = Some (VArr items) -> In c items ->
    invalid_category c -> invalid_plan (VObj o).

Lemma invalid_major_fails m : invalid_major m -> majorTask (Some m) = ShapeError.
Proof.
  intros H. rewrite majorTask_eq.
  replace (majorTaskIn (Some m)) with (@ShapeError MajorTaskIn); [reflexivity|].
  symmetry. apply not_Ok_ShapeError. intros i Hi.
  apply majorTaskIn_Ok in Hi. destruct Hi as (o & Eo & Hn & Ht & Hg).
  injection Eo as ->.
  apply z_array_Ok in Ht. destruct Ht as (items & Hitems & Hall).
  inversion H as [v Hv|o' Hbad|o' Hbad|o' Hbad|o' items' t Hget Hin Hbad]; subst.
  - exact (Hv o eq_refl).
  - congruence.
  - congruence.
  - exact (Hbad items Hitems).
  - rewrite Hget in Hitems. injection Hitems as <-.
    apply mapM_Forall2 in Hall.
    rewrite (mapM_ShapeError (fun item => minorTask (Some item)) items' t Hin Hbad)
      in Hall.
    discriminate.
Qed.

Lemma invalid_category_fails c :
  invalid_category c -> taskCategory (Some c) = ShapeError.
Proof.
  intros H. rewrite taskCategory_eq.
  replace (taskCategoryIn (Some c)) with (@ShapeError TaskCategoryIn);
    [reflexivity|].
  symmetry. apply not_Ok_ShapeError. intros i Hi.
  apply taskCategoryIn_Ok in Hi. destruct Hi as (o & Eo & Hn & Ht).
  injection Eo as ->.
  apply z_array_Ok in Ht. destruct Ht as (items & Hitems & Hall).
  inversion H as [v Hv|o' Hbad|o' Hbad|o' items' m Hget Hin Hbad]; subst.
  - exact (Hv o eq_refl).
  - congruence.
  - exact (Hbad items Hitems).
  - rewrite Hget in Hitems. injection Hitems as <-.
    apply mapM_Forall2 in Hall.
    rewrite (mapM_ShapeError (fun item => majorTask (Some item)) items' m Hin
               (invalid_major_fails m Hbad)) in Hall.
    discriminate.
Qed.

(** The specification's example: the second MinorTask has no [name]. *)
Definition plan_minor_without_name : value :=
  raw_plan [raw_category "frontend"
    [raw_major "pages" 1
       [raw_minor "home" 2 4 3 4;
        VObj [("lowerEstimate", VNum 1); ("higherEstimate", VNum 2);
              ("complexity", VNum 5); ("confidence", VNum 2)]%string]]].

Lemma invalid_plan_fails doc :
  invalid_plan doc -> estimateList (Some doc) = ShapeError.
Proof.
  intros H. rewrite estimateList_eq.
  replace (estimateSchema (Some doc)) with (@ShapeError EstimateSchema);
    [reflexivity|].
  symmetry. apply not_Ok_ShapeError. intros i Hi.
  apply estimateSchema_Ok in Hi. destruct Hi as (o & items & Eo & Hitems & Hall).
  injection Eo as ->.
  inversion H as [v Hv|o' Hbad|o' items' c Hget Hin Hbad]; subst.
  - exact (Hv o eq_refl).
  - exact (Hbad items Hitems).
  - rewrite Hget in Hitems. injection Hitems as <-.
    rewrite (mapM_ShapeError (fun item => taskCategory (Some item)) items' c Hin
               (invalid_category_fails c Hbad)) in Hall.
    discriminate.
Qed.

(** C3: a document that fails validation at any level (the plan, a
    TaskCategory, a MajorTask with its gantt, or a MinorTask) makes
    [estimateList] fail as a whole, and the result is the error alone, never
    a partly aggregated tree; and whenever a node is returned, its totals
    were reduced from children that the node's plain schema had validated. *)
Theorem C3_shape_failure_fails_everything (doc : value) :
  (invalid_plan doc -> estimateList (Some doc) = ShapeError)
  /\
  (forall v,
     (forall m, majorTask v = Ok m ->
        exists i, majorTaskIn v = Ok i /\
                  major_estimates m = totals_of (majorIn_tasks i)) /\
     (forall c, taskCategory v = Ok c ->
        exists i, taskCategoryIn v = Ok i /\
                  category_estimates c = totals_of (categoryIn_tasks i)) /\
     (forall p, estimateList v = Ok p ->
        exists i, estimateSchema v = Ok i /\
                  plan_totals p = totals_of (schema_estimates i))).
Proof.
  split; [apply invalid_plan_fails|].
  intros v. split; [|split].
  - intros m H. apply majorTask_Ok in H. destruct H as (Hi & He & _).
    eexists. split; [exact Hi|exact He].
  - intros c H. apply taskCategory_Ok in H.
    destruct H as (i & Hi & _ & _ & He & _). exists i. auto.
  - intros p H. apply estimateList_Ok in H.
    destruct H as (i & Hi & _ & _ & He & _). exists i. auto.
Qed.

Lemma C3_witness :
  invalid_plan plan_minor_without_name /\
  estimateList (Some plan_minor_without_name) = ShapeError.
Proof.
  assert (H : invalid_plan plan_minor_without_name).
  { eapply plan_bad_category; [reflexivity|left; reflexivity|].
    eapply category_bad_major; [reflexivity|left; reflexivity|].
    eapply major_bad_minor; [reflexivity|right; left; reflexivity|].
    reflexivity. }
  split; [exact H|].
  exact (proj1 (C3_shape_failure_fails_everything plan_minor_without_name) H).
Defined.

(** ** C4: a category's tasks are sorted by position, stably *)

Definition positions (ms : list MajorTask) : list float :=
  map major_position ms.

(** A category whose MajorTasks are listed with the positions 3, 1, 2. *)
Definition category_3_1_2 : value :=
  raw_category "backend"
    [raw_major "api" 3 [raw_minor "routes" 1 2 3 4];
     raw_major "db" 1 [raw_minor "schema" 1 2 3 4];
     raw_major "auth" 2 [raw_minor "login" 1 2 3 4]].

(** C4: the tasks of an aggregated TaskCategory are the validated
    MajorTasks of the raw category, rearranged (a permutation) into
    ascending order of [gantt.position]; tasks with equal positions keep the
    order they had in the input. *)
Theorem C4_tasks_sorted_by_position (v : option value) (c : TaskCategory) :
  taskCategory v = Ok c ->
  exists input,
    taskCategoryIn v = Ok input /\
    Permutation (categoryIn_tasks input) (category_tasks c) /\
    StronglySorted
      (fun a b => (major_position a <=? major_position b) = true)
      (category_tasks c) /\
    forall k, with_key major_position k (category_tasks c)
              = with_key major_position k (categoryIn_tasks input).
Proof.
  intros H. apply taskCategory_Ok in H.
  destruct H as (input & Hi & _ & Ht & _ & _).
  exists input. split; [exact Hi|].
  assert (Hok : Forall (key_ok major_position) (categoryIn_tasks input)).
  { apply taskCategoryIn_wf in Hi.
    eapply Forall_impl; [|exact Hi]. apply wf_major_key_ok. }
  rewrite Ht. split; [|split].
  - apply (Array_sort_perm major_position).
  - apply (Array_sort_sorted major_position). exact Hok.
  - intros k. destruct (is_nan k) eqn:Hk.
    + rewrite !with_key_nan by assumption. reflexivity.
    + apply (Array_sort_with_key major_position); assumption.
Qed.

Definition the_category (r : result TaskCategory) : TaskCategory :=
  match r with
  | Ok c => c
  | ShapeError => mkTaskCategory "" [] (mkEstimates 0 0 0 0)
  end.

Lemma C4_witness :
  exists c input,
    taskCategory (Some category_3_1_2) = Ok c /\
    taskCategoryIn (Some category_3_1_2) = Ok input /\
    positions (categoryIn_tasks input) = [3; 1; 2] /\
    positions (category_tasks c) = [1; 2; 3] /\
    StronglySorted
      (fun a b => (major_position a <=? major_position b) = true)
      (category_tasks c).
Proof.
  destruct (C4_tasks_sorted_by_position (Some category_3_1_2)
              (the_category (taskCategory (Some category_3_1_2))))
    as (input & Hi & _ & Hs & _); [vm_compute; reflexivity|].
  exists (the_category (taskCategory (Some category_3_1_2))), input.
  split; [vm_compute; reflexivity|]. split; [exact Hi|].
  split; [|split; [vm_compute; reflexivity|exact Hs]].
  assert (E : Ok input = taskCategoryIn (Some category_3_1_2))
    by (symmetry; exact Hi).
  vm_compute in E. injection E as ->. vm_compute. reflexivity.
Defined.

(** ** C5: a node without children *)

Definition major_empty : value := raw_major "empty" 1 [].

(** C5 (as stated) fails: the complexity and confidence of a MajorTask
    without MinorTasks are [0], not [NaN]. *)
Lemma C5_counterexample :
  exists m,
    majorTask (Some major_empty) = Ok m /\ major_tasks m = [] /\
    is_nan (complexity (major_estimates m)) = false /\
    is_nan (confidence (major_estimates m)) = false.
Proof.
  eexists. split; [vm_compute; reflexivity|].
  repeat split; vm_compute; reflexivity.
Qed.

(** C5 (amended): at each of the three levels a node whose validated child
    sequence is empty is returned, nothing is thrown, and its four derived
    fields are [0]: [reduce] hands back its initial accumulator without
    calling the callback, so nothing is divided. *)
Theorem C5_no_children_gives_zero (v : option value) :
  (forall i, majorTaskIn v = Ok i -> majorIn_tasks i = [] ->
     majorTask v
     = Ok (mkMajorTask (majorIn_name i) [] (majorIn_gantt i)
             (mkEstimates 0 0 0 0)))
  /\
  (forall i, taskCategoryIn v = Ok i -> categoryIn_tasks i = [] ->
     taskCategory v
     = Ok (mkTaskCategory (categoryIn_name i) [] (mkEstimates 0 0 0 0)))
  /\
  (forall i, estimateSchema v = Ok i -> schema_estimates i = [] ->
     estimateList v = Ok (mkEstimateList [] (mkEstimates 0 0 0 0))).
Proof.
  split; [|split]; intros i Hi Ht.
  - rewrite majorTask_eq, Hi. cbn [bind]. rewrite Ht. reflexivity.
  - rewrite taskCategory_eq, Hi. cbn [bind]. rewrite Ht. reflexivity.
  - rewrite estimateList_eq, Hi. cbn [bind]. rewrite Ht. reflexivity.
Qed.

Lemma C5_witness :
  majorTask (Some major_empty)
  = Ok (mkMajorTask "empty" [] (mkGantt 1 "2024-01-01" None None)
          (mkEstimates 0 0 0 0)).
Proof.
  destruct (C5_no_children_gives_zero (Some major_empty)) as (H & _ & _).
  apply (H (mkMajorTaskIn "empty" [] (mkGantt 1 "2024-01-01" None None)));
    vm_compute; reflexivity.
Defined.

(** ** C6: feeding the output back *)

Lemma rederive_all_rederived cs :
  Forall (fun c => nan_free (totals_of (category_tasks c)) = true) cs ->
  rederive_all (map rederived cs) = Ok (map rederived cs).
Proof.
  intros H. apply rederive_all_Ok. split.
  - induction H as [|c l Hc _ IH]; cbn [map]; constructor; assumption.
  - rewrite map_map. apply map_ext. intros c. reflexivity.
Qed.

Lemma rederived_all_wf cs :
  Forall wf_category cs ->
  Forall (fun c => nan_free (totals_of (category_tasks c)) = true) cs ->
  Forall wf_category (map rederived cs).
Proof.
  intros H1 H2. induction H1 as [|c l Hc _ IH]; cbn [map]; [constructor|].
  inversion H2; subst. constructor; [apply rederived_wf; assumption|].
  apply IH. assumption.
Qed.

(** C6 (as stated) fails: for [plan_out_of_order] the second run returns
    the plan total 0.6 where the first run returned 0.6000000000000001. *)
Lemma C6_counterexample :
  exists p p',
    estimateList (Some plan_out_of_order) = Ok p /\
    estimateList (Some (value_of_estimateList p)) = Ok p' /\
    lowerEstimate (plan_totals p) = 0.60000000000000009 /\
    lowerEstimate (plan_totals p') = 0.59999999999999998 /\
    p' <> p.
Proof.
  eexists. eexists. split; [vm_compute; reflexivity|].
  split; [vm_compute; reflexivity|].
  split; [reflexivity|]. split; [reflexivity|].
  intros E. apply (f_equal (fun q => lowerEstimate (plan_totals q))) in E.
  vm_compute in E. discriminate E.
Qed.

(** C6 (amended): when the output [p] of a successful run is parsed again,
    its categories, their MajorTasks and MinorTasks come back unchanged, with
    every derived value and in the same order.  The plan's own four values
    are reduced anew from the categories of [p]: the second run returns
    them if none is [NaN] and fails otherwise, and it returns [p] itself
    exactly when they are the values [p] already has. *)
Theorem C6_second_run (v : option value) (p : EstimateList) :
  estimateList v = Ok p ->
  let again := totals_of (plan_estimates p) in
  estimateSchema (Some (value_of_estimateList p))
  = Ok (mkEstimateSchema (plan_estimates p))
  /\ estimateList (Some (value_of_estimateList p))
     = checked again (mkEstimateList (plan_estimates p) again)
  /\ (estimateList (Some (value_of_estimateList p)) = Ok p
      <-> plan_totals p = again).
Proof.
  intros H again. apply estimateList_Ok in H.
  destruct H as (input & Hi & Hp & Hn & Ht & Hnt).
  apply estimateSchema_wf in Hi.
  assert (Hwf := rederived_all_wf _ Hi Hn).
  assert (Hre := rederive_all_rederived _ Hn).
  rewrite <- Hp in Hwf, Hre.
  assert (E1 : estimateSchema (Some (value_of_estimateList p))
               = Ok (mkEstimateSchema (plan_estimates p))).
  { unfold value_of_estimateList. cbn [app].
    rewrite estimateSchema_of_fields by assumption. rewrite Hre. reflexivity. }
  assert (E2 : estimateList (Some (value_of_estimateList p))
               = checked again (mkEstimateList (plan_estimates p) again)).
  { rewrite estimateList_eq, E1. cbn [bind schema_estimates]. cbn zeta.
    rewrite Hre. reflexivity. }
  split; [exact E1|]. split; [exact E2|].
  rewrite E2, checked_Ok. split.
  - intros [_ E]. rewrite <- E. reflexivity.
  - intros E. rewrite <- E. split; [exact Hnt|]. destruct p; reflexivity.
Qed.

Lemma C6_witness :
  exists p,
    estimateList (Some plan_single) = Ok p /\
    estimateList (Some (value_of_estimateList p)) = Ok p.
Proof.
  exists (the_plan (estimateList (Some plan_single))).
  split; [vm_compute; reflexivity|].
  apply (C6_second_run (Some plan_single)); vm_compute; reflexivity.
Defined.

(** ** C7: MinorTasks are never reordered *)

Lemma Forall2_In_r {A B} (R : A -> B -> Prop) l l' y :
  Forall2 R l l' -> In y l' -> exists x, In x l /\ R x y.
Proof.
  induction 1 as [|a b l l' Hab _ IH]; intros Hin; [destruct Hin|].
  destruct Hin as [<-|Hin].
  - exists a. split; [left; reflexivity|exact Hab].
  - destruct (IH Hin) as (x & Hx & Hr). exists x. split; [right|]; assumption.
Qed.

(** The tasks of an aggregated MajorTask are the raw tasks, validated one by
    one, in the order of the raw array. *)
Lemma major_tasks_in_order v m :
  majorTask (Some v) = Ok m ->
  exists o minors,
    v = VObj o /\ get "tasks" o = Some (VArr minors) /\
    Forall2 (fun item t => minorTask (Some item) = Ok t) minors (major_tasks m).
Proof.
  intros H. apply majorTask_Ok in H. destruct H as (Hi & _ & _).
  apply majorTaskIn_Ok in Hi. destruct Hi as (o & Eo & _ & Ht & _).
  injection Eo as ->. apply z_array_Ok in Ht. destruct Ht as (minors & Hg & Hall).
  exists o, minors. auto.
Qed.

(** How the tasks of an aggregated category come from the raw category:
    every raw MajorTask, in the order of the raw [tasks] array, validates to
    a MajorTask whose tasks are its own raw MinorTasks, validated one by one
    in the order of its raw [tasks] array; the category holds exactly these
    MajorTasks, rearranged. *)
Definition minors_in_raw_order (raw : value) (c : TaskCategory) : Prop :=
  exists co majors validated,
    raw = VObj co /\ get "tasks" co = Some (VArr majors) /\
    Forall2
      (fun item m =>
         majorTask (Some item) = Ok m /\
         exists mo minors,
           item = VObj mo /\ get "tasks" mo = Some (VArr minors) /\
           Forall2 (fun it t => minorTask (Some it) = Ok t)
             minors (major_tasks m))
      majors validated /\
    Permutation validated (category_tasks c).

Lemma category_minors_in_raw_order raw c :
  taskCategory (Some raw) = Ok c -> minors_in_raw_order raw c.
Proof.
  intros H. apply taskCategory_Ok in H.
  destruct H as (input & Hi & _ & Ht & _ & _).
  apply taskCategoryIn_Ok in Hi. destruct Hi as (co & Eo & _ & Hts).
  injection Eo as ->. apply z_array_Ok in Hts.
  destruct Hts as (majors & Hg & Hall).
  exists co, majors, (categoryIn_tasks input).
  split; [reflexivity|]. split; [exact Hg|]. split.
  - clear Hg Ht. induction Hall as [|item m l l' Hok _ IH]; constructor;
      [|exact IH].
    split; [exact Hok|].
    destruct (major_tasks_in_order item m Hok) as (mo & minors & -> & Hgm & Hmin).
    exists mo, minors. auto.
  - rewrite Ht. apply (Array_sort_perm major_position).
Qed.

(** C7: in the output of [estimateList] the categories stand in the order
    of the raw [estimates] array, and every MajorTask of the output is the
    validation of a raw MajorTask of its category and holds the MinorTasks
    of that same raw MajorTask, in the order of its raw [tasks] array.  Only
    a category's MajorTasks are rearranged (C4). *)
Theorem C7_minor_tasks_keep_their_order
    (o : list (string * value)) (p : EstimateList) :
  estimateList (Some (VObj o)) = Ok p ->
  exists cats,
    get "estimates" o = Some (VArr cats) /\
    Forall2 minors_in_raw_order cats (plan_estimates p).
Proof.
  intros H. apply estimateList_Ok in H.
  destruct H as (input & Hi & Hp & _ & _ & _).
  apply estimateSchema_Ok in Hi. destruct Hi as (o' & cats & Eo & Hg & Hall).
  injection Eo as <-. exists cats. split; [exact Hg|].
  rewrite Hp. apply mapM_Forall2 in Hall. clear Hg Hp.
  induction Hall as [|raw c1 l l' Hc _ IH]; cbn [map]; [constructor|].
  constructor; [|exact IH].
  apply category_minors_in_raw_order in Hc.
  destruct Hc as (co & majors & validated & E1 & E2 & E3 & E4).
  exists co, majors, validated. auto.
Qed.

Lemma C7_witness :
  exists p cats,
    estimateList (Some plan_single) = Ok p /\
    plan_single = raw_plan cats /\
    Forall2 minors_in_raw_order cats (plan_estimates p).
Proof.
  destruct (C7_minor_tasks_keep_their_order
              [("estimates", VArr [raw_category "frontend"
                 [raw_major "pages" 1
                    [raw_minor "home" 2 4 3 4; raw_minor "about" 1 2 5 2]]])]%string
              (the_plan (estimateList (Some plan_single))))
    as (cats & Hg & Hall); [vm_compute; reflexivity|].
  exists (the_plan (estimateList (Some plan_single))), cats.
  split; [vm_compute; reflexivity|].
  cbn in Hg. injection Hg as <-. split; [reflexivity|exact Hall].
Defined.

(** ** C8: the derived fields of the raw input are ignored *)

Definition derived_key (k : string) : bool :=
  existsb (String.eqb k)
    ["lowerEstimate"; "higherEstimate"; "complexity"; "confidence"]%string.

(** Two raw objects that agree on every key that is not a derived field. *)
Definition same_but_derived (o1 o2 : list (string * value)) : Prop :=
  forall k, derived_key k = false -> get k o1 = get k o2.

(** Raw MajorTasks that differ at most in their derived fields. *)
Inductive alike_major : value -> value -> Prop :=
| alike_major_same v : alike_major v v
| alike_major_fields o1 o2 :
    same_but_derived o1 o2 -> alike_major (VObj o1) (VObj o2).

(** Raw TaskCategories that differ at most in their derived fields and in
    those of their MajorTasks. *)
Inductive alike_category : value -> value -> Prop :=
| alike_category_same v : alike_category v v
| alike_category_fields o1 o2 l1 l2 :
    (forall k, derived_key k = false -> k <> "tasks"%string ->
               get k o1 = get k o2) ->
    get "tasks" o1 = Some (VArr l1) -> get "tasks" o2 = Some (VArr l2) ->
    Forall2 alike_major l1 l2 ->
    alike_category (VObj o1) (VObj o2).

(** Raw plans that differ at most in derived fields of non-leaf nodes. *)
Inductive alike_plan : value -> value -> Prop :=
| alike_plan_same v : alike_plan v v
| alike_plan_fields o1 o2 l1 l2 :
    get "estimates" o1 = Some (VArr l1) -> get "estimates" o2 = Some (VArr l2) ->
    Forall2 alike_category l1 l2 ->
    alike_plan (VObj o1) (VObj o2).

Lemma mapM_Forall2_eq {A B} (f : A -> result B) l1 l2 :
  Forall2 (fun a b => f a = f b) l1 l2 -> mapM f l1 = mapM f l2.
Proof.
  induction 1 as [|a b l l' Hab _ IH]; [reflexivity|].
  cbn [mapM]. rewrite Hab, IH. reflexivity.
Qed.

Lemma alike_major_same_result v1 v2 :
  alike_major v1 v2 -> majorTask (Some v1) = majorTask (Some v2).
Proof.
  intros [v|o1 o2 H]; [reflexivity|].
  unfold majorTask, z_preprocess.
  assert (E : majorTaskIn (Some (VObj o1)) = majorTaskIn (Some (VObj o2))).
  { unfold majorTaskIn, z_object, field.
    rewrite (H "name"%string eq_refl), (H "tasks"%string eq_refl),
      (H "gantt"%string eq_refl). reflexivity. }
  rewrite E. reflexivity.
Qed.

Lemma alike_category_same_result v1 v2 :
  alike_category v1 v2 -> taskCategory (Some v1) = taskCategory (Some v2).
Proof.
  intros [v|o1 o2 l1 l2 H G1 G2 Hall]; [reflexivity|].
  unfold taskCategory, z_preprocess.
  assert (E : taskCategoryIn (Some (VObj o1)) = taskCategoryIn (Some (VObj o2))).
  { unfold taskCategoryIn, z_object, field.
    rewrite (H "name"%string eq_refl) by discriminate.
    rewrite G1, G2. unfold z_array.
    rewrite (mapM_Forall2_eq (fun item => majorTask (Some item)) l1 l2);
      [reflexivity|].
    eapply Forall2_impl; [|exact Hall]. apply alike_major_same_result. }
  rewrite E. reflexivity.
Qed.

(** C8: two raw plans that differ only in what they supply for
    [lowerEstimate], [higherEstimate], [complexity] or [confidence] on the
    plan, on TaskCategories or on MajorTasks (another value, a value of another
    type, or none) have the same result. *)
Theorem C8_derived_fields_of_input_ignored (v1 v2 : value) :
  alike_plan v1 v2 -> estimateList (Some v1) = estimateList (Some v2).
Proof.
  intros [v|o1 o2 l1 l2 G1 G2 Hall]; [reflexivity|].
  unfold estimateList, z_preprocess.
  assert (E : estimateSchema (Some (VObj o1)) = estimateSchema (Some (VObj o2))).
  { unfold estimateSchema, z_object, field. rewrite G1, G2. unfold z_array.
    rewrite (mapM_Forall2_eq (fun item => taskCategory (Some item)) l1 l2);
      [reflexivity|].
    eapply Forall2_impl; [|exact Hall]. apply alike_category_same_result. }
  rewrite E. reflexivity.
Qed.

Lemma get_derived_cons k k' x o :
  derived_key k' = true -> derived_key k = false ->
  get k ((k', x) :: o) = get k o.
Proof.
  intros H' H. cbn [get]. destruct (String.eqb_spec k' k) as [->|]; [|reflexivity].
  congruence.
Qed.

(** [plan_single] with derived fields written into the raw plan, category
    and MajorTask. *)
Definition plan_single_with_totals : value :=
  VObj [("lowerEstimate", VNum 1000);
        ("estimates", VArr
           [VObj [("complexity", VStr "high"); ("name", VStr "frontend");
                  ("tasks", VArr
                     [VObj [("higherEstimate", VNum 0); ("name", VStr "pages");
                            ("tasks", VArr [raw_minor "home" 2 4 3 4;
                                            raw_minor "about" 1 2 5 2]);
                            ("gantt", VObj [("position", VNum 1);
                                            ("start", VStr "2024-01-01")])]])]])]%string.

Lemma C8_witness :
  alike_plan plan_single plan_single_with_totals /\
  estimateList (Some plan_single) = estimateList (Some plan_single_with_totals).
Proof.
  assert (H : alike_plan plan_single plan_single_with_totals).
  { eapply alike_plan_fields; [reflexivity|reflexivity|].
    constructor; [|constructor].
    eapply alike_category_fields; [|reflexivity|reflexivity|].
    - intros k Hk Hn.
      rewrite (get_derived_cons k "complexity") by (reflexivity || exact Hk).
      cbn [get]. destruct (String.eqb "name" k); [reflexivity|].
      destruct (String.eqb_spec "tasks" k); [congruence|reflexivity].
    - constructor; [|constructor]. apply alike_major_fields.
      intros k Hk. symmetry. apply get_derived_cons; [reflexivity|exact Hk]. }
  split; [exact H|].
  exact (C8_derived_fields_of_input_ignored plan_single plan_single_with_totals H).
Defined.

(** ** C9: what a validated MinorTask satisfies *)

Definition minor_negative : value := raw_minor "refund" (-1) (-2) 3 4.

(** C9 (as stated) fails: a MinorTask with [lowerEstimate = -1] and
    [higherEstimate = -2] passes validation unchanged. *)
Lemma C9_counterexample :
  exists t,
    minorTask (Some minor_negative) = Ok t /\
    (lowerEstimate (minor_estimates t) <? 0) = true /\
    (higherEstimate (minor_estimates t) <? lowerEstimate (minor_estimates t))
    = true.
Proof.
  eexists. split; [vm_compute; reflexivity|].
  split; vm_compute; reflexivity.
Qed.

(** C9 (amended): the four estimate fields of a validated MinorTask are the
    numbers of the raw object, none of them [NaN]; and every raw object with
    a string [name], four estimate fields that are numbers other than [NaN]
    and a [comment] that is absent or a string is accepted, whatever the
    sign or the order of the numbers and whatever other keys it has. *)
Theorem C9_minor_estimates_are_numbers :
  (forall v t, minorTask v = Ok t ->
     exists o, v = Some (VObj o) /\
       get "lowerEstimate" o = Some (VNum (lowerEstimate (minor_estimates t))) /\
       get "higherEstimate" o = Some (VNum (higherEstimate (minor_estimates t))) /\
       get "complexity" o = Some (VNum (complexity (minor_estimates t))) /\
       get "confidence" o = Some (VNum (confidence (minor_estimates t))) /\
       nan_free (minor_estimates t) = true)
  /\
  (forall o n e c,
     get "name" o = Some (VStr n) ->
     get "lowerEstimate" o = Some (VNum (lowerEstimate e)) ->
     get "higherEstimate" o = Some (VNum (higherEstimate e)) ->
     get "complexity" o = Some (VNum (complexity e)) ->
     get "confidence" o = Some (VNum (confidence e)) ->
     get "comment" o = option_map VStr c ->
     nan_free e = true ->
     minorTask (Some (VObj o)) = Ok (mkMinorTask n e c)).
Proof.
  split.
  - intros v t H. apply minorTask_Ok in H. destruct H as (o & -> & _ & He).
    apply estimates_Ok in He. destruct He as (o' & Eo & H1 & H2 & H3 & H4 & Hn).
    injection Eo as <-. exists o. auto 10.
  - intros o n e c Hname H1 H2 H3 H4 Hc Hn.
    apply nan_free_true in Hn. destruct Hn as (N1 & N2 & N3 & N4).
    destruct e as [lo hi cx cf];
      cbn [lowerEstimate higherEstimate complexity confidence] in *.
    unfold minorTask, z_and, estimates, z_object, field. cbv beta iota.
    rewrite Hname. cbn [z_string bind].
    rewrite H1. cbn [z_number]. rewrite N1. cbn [bind].
    rewrite H2. cbn [z_number]. rewrite N2. cbn [bind].
    rewrite H3. cbn [z_number]. rewrite N3. cbn [bind].
    rewrite H4. cbn [z_number]. rewrite N4. cbn [bind].
    rewrite Hc. destruct c; reflexivity.
Qed.

(** A raw MinorTask with a comment, a key the schema does not know, a
    negative [lowerEstimate] and a [higherEstimate] below it. *)
Definition minor_negative_commented : list (string * value) :=
  [("owner", VStr "ops"); ("name", VStr "refund");
   ("lowerEstimate", VNum (-1)); ("higherEstimate", VNum (-2));
   ("complexity", VNum 3); ("confidence", VNum 4);
   ("comment", VStr "credit note")]%string.

Lemma C9_witness :
  minorTask (Some (VObj minor_negative_commented))
  = Ok (mkMinorTask "refund" (mkEstimates (-1) (-2) 3 4) (Some "credit note"%string)).
Proof.
  destruct C9_minor_estimates_are_numbers as [_ H].
  apply (H minor_negative_commented "refund"%string
           (mkEstimates (-1) (-2) 3 4) (Some "credit note"%string));
    reflexivity.
Defined.

(** ** C10: the effort range stays ordered *)

Definition ordered (e : Estimates) : Prop :=
  (lowerEstimate e <=? higherEstimate e) = true.

Lemma fold_add_not_nan xs acc :
  is_nan (fold_left PrimFloat.add xs acc) = false -> is_nan acc = false.
Proof.
  revert acc. induction xs as [|x xs IH]; intros acc H; [exact H|].
  cbn [fold_left] in H. apply IH in H.
  apply FloatFacts.add_not_nan in H. exact (proj1 H).
Qed.

Lemma fold_add_le ls hs :
  Forall2 (fun l h => (l <=? h) = true) ls hs ->
  forall a b, (a <=? b) = true ->
    is_nan (fold_left PrimFloat.add ls a) = false ->
    is_nan (fold_left PrimFloat.add hs b) = false ->
    (fold_left PrimFloat.add ls a <=? fold_left PrimFloat.add hs b) = true.
Proof.
  induction 1 as [|l h ls hs Hlh _ IH]; intros a b Hab Na Nb; [exact Hab|].
  cbn [fold_left] in *. apply IH; try assumption.
  apply FloatFacts.add_mono; try assumption.
  - eapply fold_add_not_nan; exact Na.
  - eapply fold_add_not_nan; exact Nb.
Qed.

(** The reducer keeps [lowerEstimate <= higherEstimate] when the children
    it reduces have it and the totals are numbers. *)
Lemma totals_of_ordered {A} `{HasEstimates A} (l : list A) :
  Forall (fun t => ordered (estimatesOf t)) l ->
  nan_free (totals_of l) = true -> ordered (totals_of l).
Proof.
  intros Hl Hn. apply nan_free_true in Hn. destruct Hn as (N1 & N2 & _).
  rewrite totals_of_eq in *. cbn [lowerEstimate higherEstimate] in *.
  unfold ordered. cbn [lowerEstimate higherEstimate].
  apply fold_add_le; try assumption; [|reflexivity].
  clear N1 N2. unfold lowers, highers.
  induction Hl as [|t l Ht _ IH]; cbn [map]; constructor; assumption.
Qed.

(** One category whose MajorTasks are listed against their positions; two
    of them have a lower estimate above the higher one. *)
Definition plan_swapped : value :=
  raw_plan [raw_category "c"
    [raw_major "x" 3 [raw_minor "x1" 1 9007199254740992 3 4];
     raw_major "y" 2 [raw_minor "y1" 1 1 3 4];
     raw_major "z" 1 [raw_minor "z1" 9007199254740992 1 3 4]]].

(** C10 (as stated) fails at the plan: the only category of the output of
    [plan_swapped] has the range [2^53, 2^53 + 2], the plan has the lower
    estimate [2^53 + 2] and the higher estimate [2^53]. *)
Lemma C10_counterexample :
  exists p,
    estimateList (Some plan_swapped) = Ok p /\
    Forall (fun c => ordered (category_estimates c)) (plan_estimates p) /\
    ~ ordered (plan_totals p).
Proof.
  eexists. split; [vm_compute; reflexivity|]. split.
  - repeat constructor.
  - intros H. vm_compute in H. discriminate H.
Qed.

(** C10 (amended): a node's derived range is ordered whenever the children
    it was reduced from are: the MinorTasks of a MajorTask, the MajorTasks
    of a TaskCategory, and for the plan the TaskCategories as the first
    validation aggregated them ([estimateSchema]), which the output holds
    derived again.  So when every MinorTask of the output has an ordered
    range, every node of the output has. *)
Theorem C10_ranges_stay_ordered (v : option value) :
  (forall m, majorTask v = Ok m ->
     Forall (fun t => ordered (minor_estimates t)) (major_tasks m) ->
     ordered (major_estimates m))
  /\
  (forall c, taskCategory v = Ok c ->
     Forall (fun m => ordered (major_estimates m)) (category_tasks c) ->
     ordered (category_estimates c))
  /\
  (forall p input, estimateList v = Ok p -> estimateSchema v = Ok input ->
     Forall (fun c => ordered (category_estimates c)) (schema_estimates input) ->
     ordered (plan_totals p))
  /\
  (forall p, estimateList v = Ok p ->
     (forall c m t, In c (plan_estimates p) -> In m (category_tasks c) ->
                    In t (major_tasks m) -> ordered (minor_estimates t)) ->
     ordered (plan_totals p) /\
     forall c, In c (plan_estimates p) ->
       ordered (category_estimates c) /\
       forall m, In m (category_tasks c) -> ordered (major_estimates m)).
Proof.
  assert (Major : forall m, wf_major m ->
            Forall (fun t => ordered (minor_estimates t)) (major_tasks m) ->
            ordered (major_estimates m)).
  { intros m (_ & _ & He & Hn) Hts. rewrite He in *.
    apply totals_of_ordered; assumption. }
  assert (Category : forall c, wf_category c ->
            Forall (fun m => ordered (major_estimates m)) (category_tasks c) ->
            ordered (category_estimates c)).
  { intros c (_ & _ & Hn & ms & Hperm & He) Hts. rewrite He in *.
    apply totals_of_ordered; [|assumption].
    eapply Permutation_Forall; [apply Permutation_sym; exact Hperm|exact Hts]. }
  split; [|split; [|split]].
  - intros m Hm. apply Major. eapply majorTask_wf; exact Hm.
  - intros c Hc. apply Category. eapply taskCategory_wf; exact Hc.
  - intros p input Hp Hi Hcs. apply estimateList_Ok in Hp.
    destruct Hp as (input' & Hi' & _ & _ & Ht & Hn).
    rewrite Hi in Hi'. injection Hi' as <-. rewrite Ht in *.
    apply totals_of_ordered; assumption.
  - intros p Hp Hleaves. apply estimateList_Ok in Hp.
    destruct Hp as (input & Hi & Hcs & Hre & Ht & Hn).
    apply estimateSchema_wf in Hi. rewrite Hcs in Hleaves.
    assert (Hmajors : forall c, In c (schema_estimates input) ->
              Forall (fun m => ordered (major_estimates m)) (category_tasks c)).
    { intros c Hc. rewrite Forall_forall in Hi |- *. intros m Hm.
      destruct (Hi c Hc) as (Hms & _). rewrite Forall_forall in Hms.
      apply Major; [apply Hms; exact Hm|].
      rewrite Forall_forall. intros t Htm.
      apply (Hleaves (rederived c) m t); [|exact Hm|exact Htm].
      apply in_map. exact Hc. }
    split.
    + rewrite Ht in *. apply totals_of_ordered; [|assumption].
      rewrite Forall_forall in Hi |- *. intros c Hc.
      apply Category; [apply Hi; exact Hc|apply Hmajors; exact Hc].
    + rewrite Hcs. intros c' Hc'. apply in_map_iff in Hc'.
      destruct Hc' as (c & <- & Hc). rewrite Forall_forall in Hi, Hre.
      split.
      * apply Category; [|exact (Hmajors c Hc)].
        apply rederived_wf; [apply Hi; exact Hc|apply Hre; exact Hc].
      * intros m Hm. specialize (Hmajors c Hc).
        rewrite Forall_forall in Hmajors. apply Hmajors. exact Hm.
Qed.

Lemma C10_witness :
  exists p,
    estimateList (Some plan_single) = Ok p /\
    ordered (plan_totals p) /\
    forall c, In c (plan_estimates p) -> ordered (category_estimates c).
Proof.
  destruct (C10_ranges_stay_ordered (Some plan_single)) as (_ & _ & _ & H).
  specialize (H (the_plan (estimateList (Some plan_single)))).
  destruct H as [Hp Hc]; [vm_compute; reflexivity| |].
  - intros c m t Hc Hm Ht. vm_compute in Hc.
    destruct Hc as [<-|[]]. vm_compute in Hm. destruct Hm as [<-|[]].
    vm_compute in Ht. destruct Ht as [<-|[<-|[]]]; reflexivity.
  - exists (the_plan (estimateList (Some plan_single))).
    split; [vm_compute; reflexivity|]. split; [exact Hp|].
    intros c Hin. exact (proj1 (Hc c Hin)).
Defined.

(** * Further properties of the code *)

(** ** More facts about binary64 arithmetic *)

Module MoreFloatFacts.

Import FloatFacts.
Local Open Scope Z_scope.

Lemma SFsub_neg x y :
  valid_binary x = true -> valid_binary y = true ->
  valid_binary (SF64sub x y) = true ->
  is_nanSF x = false -> is_nanSF y = false ->
  SFltb (SF64sub x y) (S754_zero false) = SFltb x y.
Proof.
  intros Vx Vy Vxy Nx Ny.
  assert (T : 0 < top) by (apply pow2_gt0; lia).
  destruct (not_nan_cases x Nx) as [Fx|[->| ->]];
    destruct (not_nan_cases y Ny) as [Fy|[->| ->]];
    try reflexivity.
  - destruct (SFsub_ord x y Vx Vy Fx Fy) as [E N].
    rewrite !SFltb_ord by (assumption || reflexivity).
    rewrite E. change (ord (S754_zero false)) with 0.
    assert (S := RND_sgn (ord x - ord y)).
    ltb_solve.
  - assert (O := ord_number x Vx Fx).
    replace (SF64sub x (S754_infinity false)) with (S754_infinity true)
      by (destruct x; try discriminate; reflexivity).
    rewrite !SFltb_ord by (assumption || reflexivity).
    cbn [ord cond_Zopp]. ltb_solve.
  - assert (O := ord_number x Vx Fx).
    replace (SF64sub x (S754_infinity true)) with (S754_infinity false)
      by (destruct x; try discriminate; reflexivity).
    rewrite !SFltb_ord by (assumption || reflexivity).
    cbn [ord cond_Zopp]. ltb_solve.
  - assert (O := ord_number y Vy Fy).
    replace (SF64sub (S754_infinity false) y) with (S754_infinity false)
      by (destruct y; try discriminate; reflexivity).
    rewrite !SFltb_ord by (assumption || reflexivity).
    cbn [ord cond_Zopp]. ltb_solve.
  - assert (O := ord_number y Vy Fy).
    replace (SF64sub (S754_infinity true) y) with (S754_infinity true)
      by (destruct y; try discriminate; reflexivity).
    rewrite !SFltb_ord by (assumption || reflexivity).
    cbn [ord cond_Zopp]. ltb_solve.
Qed.

Lemma sub_neg a b :
  is_nan a = false -> is_nan b = false ->
  (a - b <? 0)%float = (a <? b)%float.
Proof.
  rewrite !is_nan_spec, !ltb_spec, sub_spec. intros Na Nb.
  change (Prim2SF 0%float) with (S754_zero false).
  apply SFsub_neg; try assumption; try apply Prim2SF_valid.
  rewrite <- sub_spec. apply Prim2SF_valid.
Qed.

(** Two numbers are equal when neither is below the other. *)
Lemma ltb_or_eqb a b :
  is_nan a = false -> is_nan b = false ->
  ((a <? b) || (b <? a))%float = negb (a =? b)%float.
Proof.
  intros Na Nb. rewrite !ltb_fval, eqb_fval by assumption.
  destruct (Z.ltb_spec (fval a) (fval b)), (Z.ltb_spec (fval b) (fval a)),
    (Z.eqb_spec (fval a) (fval b)); cbn; try reflexivity; lia.
Qed.

(** [0 + x] is [x], but for [x = -0], where it is [+0]. *)
Lemma add_zero_l x : is_nan x = false -> (0 + x =? x)%float = true.
Proof.
  rewrite is_nan_spec, eqb_spec, add_spec. intros N.
  change (Prim2SF 0%float) with (S754_zero false).
  destruct (Prim2SF x) as [s|s| |s m e]; try discriminate.
  - destruct s; reflexivity.
  - destruct s; reflexivity.
  - cbn [SF64add SFadd]. unfold SFeqb, SFcompare.
    destruct s; rewrite Z.compare_refl, ?Pos.compare_cont_refl;
      try rewrite Pos.compare_refl; reflexivity.
Qed.

Lemma leb_zero_zero : (0 <=? 0)%float = true.
Proof. reflexivity. Qed.

End MoreFloatFacts.

(** ** The comparator of the sort *)

(** X1: for tasks whose positions are numbers (as those of every validated
    MajorTask are), the comparator [a.gantt.position - b.gantt.position] is
    negative exactly when [a]'s position is below [b]'s, positive exactly
    when it is above, and neither (zero, or [NaN] for two equal infinities)
    exactly when the positions are equal: the difference never loses the
    order, however close or far apart the positions are. *)
Theorem by_position_sign_is_order (a b : MajorTask) :
  is_nan (major_position a) = false -> is_nan (major_position b) = false ->
  (by_position a b <? 0) = (major_position a <? major_position b) /\
  comes_after by_position a b = (major_position b <? major_position a) /\
  (by_position a b <? 0) || comes_after by_position a b
  = negb (major_position a =? major_position b).
Proof.
  intros Na Nb. unfold comes_after, by_position.
  fold (major_position a) (major_position b).
  rewrite MoreFloatFacts.sub_neg, FloatFacts.sub_pos by assumption.
  repeat split. apply MoreFloatFacts.ltb_or_eqb; assumption.
Qed.

Definition major_at (n : string) (pos : float) : MajorTask :=
  mkMajorTask n [] (mkGantt pos "2024-01-01" None None) (mkEstimates 0 0 0 0).

Lemma by_position_sign_is_order_witness :
  (by_position (major_at "a" 0.1) (major_at "b" 0.30000000000000004) <? 0)
  = true /\
  comes_after by_position (major_at "a" infinity) (major_at "b" infinity)
  = false.
Proof.
  destruct (by_position_sign_is_order (major_at "a" 0.1)
              (major_at "b" 0.30000000000000004) eq_refl eq_refl) as (H & _).
  destruct (by_position_sign_is_order (major_at "a" infinity)
              (major_at "b" infinity) eq_refl eq_refl) as (_ & H' & _).
  split; [rewrite H|rewrite H']; reflexivity.
Defined.

(** ** No NaN in a result *)

(** X2: no number of a plan that [estimateList] returns is [NaN]: not the
    four totals of the plan, of a TaskCategory or of a MajorTask, not the
    four fields of a MinorTask, not a [gantt.position]. *)
Theorem result_holds_no_NaN (v : option value) (p : EstimateList) :
  estimateList v = Ok p ->
  nan_free (plan_totals p) = true /\
  forall c, In c (plan_estimates p) ->
    nan_free (category_estimates c) = true /\
    forall m, In m (category_tasks c) ->
      nan_free (major_estimates m) = true /\
      is_nan (position (major_gantt m)) = false /\
      forall t, In t (major_tasks m) -> nan_free (minor_estimates t) = true.
Proof.
  intros Hp. apply estimateList_Ok in Hp.
  destruct Hp as (input & Hi & Hcs & Hre & _ & Hn).
  apply estimateSchema_wf in Hi. split; [exact Hn|].
  rewrite Hcs. intros c' Hc'. apply in_map_iff in Hc'.
  destruct Hc' as (c & <- & Hc). rewrite Forall_forall in Hi, Hre.
  split; [exact (Hre c Hc)|].
  destruct (Hi c Hc) as (Hms & _). cbn [rederived category_tasks].
  intros m Hm. rewrite Forall_forall in Hms.
  destruct (Hms m Hm) as (Hts & Hg & _ & Hnm).
  split; [exact Hnm|]. split; [exact Hg|].
  rewrite Forall_forall in Hts. exact Hts.
Qed.

Lemma result_holds_no_NaN_witness :
  nan_free (plan_totals (the_plan (estimateList (Some plan_out_of_order))))
  = true.
Proof.
  destruct (result_holds_no_NaN (Some plan_out_of_order)
              (the_plan (estimateList (Some plan_out_of_order)))) as [H _];
    [vm_compute; reflexivity|exact H].
Defined.

(** ** Parsing a result again, node by node *)

(** X3: an aggregated MajorTask is a fixed point of [majorTask]: parsing
    the object that the schema returned gives the same MajorTask, with the
    same totals. *)
Theorem majorTask_output_parses_to_itself (v : option value) (m : MajorTask) :
  majorTask v = Ok m -> majorTask (Some (value_of_majorTask m)) = Ok m.
Proof.
  intros H. apply majorTask_value_of. eapply majorTask_wf. exact H.
Qed.

Definition the_major (r : result MajorTask) : MajorTask :=
  match r with
  | Ok m => m
  | ShapeError => mkMajorTask "" [] (mkGantt 0 "" None None) (mkEstimates 0 0 0 0)
  end.

Definition major_third : value :=
  raw_major "api" 1
    [raw_minor "a" 0.1 1 1 1; raw_minor "b" 0.2 1 2 1; raw_minor "c" 0.3 2 2 5].

Lemma majorTask_output_parses_to_itself_witness :
  majorTask (Some (value_of_majorTask (the_major (majorTask (Some major_third)))))
  = Ok (the_major (majorTask (Some major_third))).
Proof.
  apply (majorTask_output_parses_to_itself (Some major_third)
           (the_major (majorTask (Some major_third)))).
  vm_compute. reflexivity.
Defined.

(** X4: parsing an aggregated TaskCategory again keeps its name and its
    tasks in their order and reduces the totals from the tasks in that
    (sorted) order, which can change them or fail on a [NaN]; what that
    second parse returns is a fixed point of [taskCategory]. *)
Theorem taskCategory_settles_on_second_parse
    (v : option value) (c : TaskCategory) :
  taskCategory v = Ok c ->
  taskCategory (Some (value_of_taskCategory c))
  = checked (totals_of (category_tasks c)) (rederived c)
  /\
  forall c', taskCategory (Some (value_of_taskCategory c)) = Ok c' ->
    category_name c' = category_name c /\
    category_tasks c' = category_tasks c /\
    category_estimates c' = totals_of (category_tasks c) /\
    taskCategory (Some (value_of_taskCategory c')) = Ok c'.
Proof.
  intros H. apply taskCategory_wf in H.
  assert (E := taskCategory_value_of c H). split; [exact E|].
  intros c' H'. rewrite E in H'. apply checked_Ok in H'.
  destruct H' as [Hn <-]. repeat split.
  rewrite taskCategory_value_of by (apply rederived_wf; assumption).
  apply checked_Ok. split; [exact Hn|reflexivity].
Qed.

Lemma taskCategory_settles_on_second_parse_witness :
  exists c c',
    taskCategory (Some category_3_1_2) = Ok c /\
    taskCategory (Some (value_of_taskCategory c)) = Ok c' /\
    taskCategory (Some (value_of_taskCategory c')) = Ok c'.
Proof.
  pose (c := the_category (taskCategory (Some category_3_1_2))).
  pose (c' := the_category (taskCategory (Some (value_of_taskCategory c)))).
  exists c, c'.
  assert (H : taskCategory (Some category_3_1_2) = Ok c)
    by (vm_compute; reflexivity).
  assert (H' : taskCategory (Some (value_of_taskCategory c)) = Ok c')
    by (vm_compute; reflexivity).
  split; [exact H|]. split; [exact H'|].
  destruct (taskCategory_settles_on_second_parse _ _ H) as (_ & F).
  exact (proj2 (proj2 (proj2 (F c' H')))).
Defined.

(** ** The effort range of a node *)

(** The range the specification asks of an estimate: not negative, and the
    higher estimate not below the lower one. *)
Definition effort_range (e : Estimates) : Prop :=
  (0 <=? lowerEstimate e) = true /\
  (lowerEstimate e <=? higherEstimate e) = true.

Lemma float_sum_zeros {A} (l : list A) :
  fold_left PrimFloat.add (map (fun _ => 0) l) 0 = 0.
Proof. induction l as [|x l IH]; [reflexivity|exact IH]. Qed.

Lemma float_sum_nonneg xs :
  Forall (fun x => (0 <=? x) = true) xs ->
  is_nan (float_sum xs) = false -> (0 <=? float_sum xs) = true.
Proof.
  intros Hxs Hn. rewrite <- (float_sum_zeros xs) at 1. unfold float_sum.
  apply fold_add_le; [|reflexivity|rewrite float_sum_zeros; reflexivity|exact Hn].
  clear Hn. induction Hxs as [|x xs Hx _ IH]; cbn [map]; constructor; assumption.
Qed.

Lemma totals_of_effort_range {A} `{HasEstimates A} (l : list A) :
  Forall (fun t => effort_range (estimatesOf t)) l ->
  nan_free (totals_of l) = true -> effort_range (totals_of l).
Proof.
  intros Hl Hn. split.
  - apply nan_free_true in Hn. destruct Hn as (N1 & _).
    rewrite totals_of_eq in *. cbn [lowerEstimate] in *.
    apply float_sum_nonneg; [|exact N1]. clear N1. unfold lowers.
    induction Hl as [|t l Ht _ IH]; cbn [map]; constructor;
      [exact (proj1 Ht)|exact IH].
  - apply totals_of_ordered; [|exact Hn].
    eapply Forall_impl; [|exact Hl]. intros t Ht. exact (proj2 Ht).
Qed.

(** What holds of the leaves and is kept by the reducer holds of every node
    of a result. *)
Lemma nodes_from_leaves (P : Estimates -> Prop) :
  (forall ts : list MinorTask,
      Forall (fun t => P (minor_estimates t)) ts ->
      nan_free (totals_of ts) = true -> P (totals_of ts)) ->
  (forall ms : list MajorTask,
      Forall (fun m => P (major_estimates m)) ms ->
      nan_free (totals_of ms) = true -> P (totals_of ms)) ->
  (forall cs : list TaskCategory,
      Forall (fun c => P (category_estimates c)) cs ->
      nan_free (totals_of cs) = true -> P (totals_of cs)) ->
  forall v p, estimateList v = Ok p ->
    (forall c m t, In c (plan_estimates p) -> In m (category_tasks c) ->
                   In t (major_tasks m) -> P (minor_estimates t)) ->
    P (plan_totals p) /\
    forall c, In c (plan_estimates p) ->
      P (category_estimates c) /\
      forall m, In m (category_tasks c) -> P (major_estimates m).
Proof.
  intros Rminor Rmajor Rcategory v p Hp Hleaves.
  assert (Major : forall m, wf_major m ->
            Forall (fun t => P (minor_estimates t)) (major_tasks m) ->
            P (major_estimates m)).
  { intros m (_ & _ & He & Hn) Hts. rewrite He in *.
    apply Rminor; assumption. }
  assert (Category : forall c, wf_category c ->
            Forall (fun m => P (major_estimates m)) (category_tasks c) ->
            P (category_estimates c)).
  { intros c (_ & _ & Hn & ms & Hperm & He) Hts. rewrite He in *.
    apply Rmajor; [|assumption].
    eapply Permutation_Forall; [apply Permutation_sym; exact Hperm|exact Hts]. }
  apply estimateList_Ok in Hp.
  destruct Hp as (input & Hi & Hcs & Hre & Ht & Hn).
  apply estimateSchema_wf in Hi. rewrite Hcs in Hleaves.
  assert (Hmajors : forall c, In c (schema_estimates input) ->
            Forall (fun m => P (major_estimates m)) (category_tasks c)).
  { intros c Hc. rewrite Forall_forall in Hi |- *. intros m Hm.
    destruct (Hi c Hc) as (Hms & _). rewrite Forall_forall in Hms.
    apply Major; [apply Hms; exact Hm|].
    rewrite Forall_forall. intros t Htm.
    apply (Hleaves (rederived c) m t); [|exact Hm|exact Htm].
    apply in_map. exact Hc. }
  split.
  - rewrite Ht in *. apply Rcategory; [|assumption].
    rewrite Forall_forall in Hi |- *. intros c Hc.
    apply Category; [apply Hi; exact Hc|apply Hmajors; exact Hc].
  - rewrite Hcs. intros c' Hc'. apply in_map_iff in Hc'.
    destruct Hc' as (c & <- & Hc). rewrite Forall_forall in Hi, Hre.
    split.
    + apply Category; [|exact (Hmajors c Hc)].
      apply rederived_wf; [apply Hi; exact Hc|apply Hre; exact Hc].
    + intros m Hm. specialize (Hmajors c Hc).
      rewrite Forall_forall in Hmajors. apply Hmajors. exact Hm.
Qed.

(** X5: when every MinorTask of a result has a lower estimate that is not
    negative and a higher estimate that is not below it, so has every
    MajorTask, every TaskCategory and the plan: rounding and overflow of
    the sums never take a total below zero or the higher total below the
    lower one. *)
Theorem effort_range_at_every_node (v : option value) (p : EstimateList) :
  estimateList v = Ok p ->
  (forall c m t, In c (plan_estimates p) -> In m (category_tasks c) ->
                 In t (major_tasks m) -> effort_range (minor_estimates t)) ->
  effort_range (plan_totals p) /\
  forall c, In c (plan_estimates p) ->
    effort_range (category_estimates c) /\
    forall m, In m (category_tasks c) -> effort_range (major_estimates m).
Proof.
  apply (nodes_from_leaves effort_range).
  - intros ts. apply (totals_of_effort_range ts).
  - intros ms. apply (totals_of_effort_range ms).
  - intros cs. apply (totals_of_effort_range cs).
Qed.

Lemma effort_range_at_every_node_witness :
  effort_range (plan_totals (the_plan (estimateList (Some plan_out_of_order)))).
Proof.
  destruct (effort_range_at_every_node (Some plan_out_of_order)
              (the_plan (estimateList (Some plan_out_of_order)))) as [H _];
    [vm_compute; reflexivity| |exact H].
  intros c m t Hc Hm Ht. vm_compute in Hc. destruct Hc as [<-|[]].
  vm_compute in Hm. destruct Hm as [<-|[<-|[<-|[]]]];
    vm_compute in Ht; destruct Ht as [<-|[]]; split; reflexivity.
Defined.

(** ** A node with one child *)

Lemma totals_of_single {A} `{HasEstimates A} (t : A) :
  nan_free (estimatesOf t) = true ->
  (lowerEstimate (totals_of [t]) =? lowerEstimate (estimatesOf t)) = true /\
  (higherEstimate (totals_of [t]) =? higherEstimate (estimatesOf t)) = true.
Proof.
  intros Hn. apply nan_free_true in Hn. destruct Hn as (N1 & N2 & _).
  rewrite totals_of_eq. cbn [lowerEstimate higherEstimate].
  unfold float_sum, lowers, highers. cbn [map fold_left].
  split; apply MoreFloatFacts.add_zero_l; assumption.
Qed.

(** X6: a MajorTask with exactly one MinorTask, and a TaskCategory with
    exactly one MajorTask, has the lower and the higher estimate of that
    child (as numbers: the total of a child's [-0] is [+0]). *)
Theorem single_child_estimates (v : option value) :
  (forall m t, majorTask v = Ok m -> major_tasks m = [t] ->
     (lowerEstimate (major_estimates m) =? lowerEstimate (minor_estimates t))
     = true /\
     (higherEstimate (major_estimates m) =? higherEstimate (minor_estimates t))
     = true)
  /\
  (forall c m, taskCategory v = Ok c -> category_tasks c = [m] ->
     (lowerEstimate (category_estimates c) =? lowerEstimate (major_estimates m))
     = true /\
     (higherEstimate (category_estimates c) =? higherEstimate (major_estimates m))
     = true).
Proof.
  split.
  - intros m t Hm Ht. apply majorTask_wf in Hm.
    destruct Hm as (Hts & _ & He & _). rewrite He, Ht. rewrite Ht in Hts.
    apply (totals_of_single t). inversion Hts; assumption.
  - intros c m Hc Ht. apply taskCategory_wf in Hc.
    destruct Hc as (Hms & _ & _ & ms & Hperm & He). rewrite Ht in *.
    apply Permutation_sym, Permutation_length_1_inv in Hperm. subst ms.
    rewrite He. apply (totals_of_single m).
    inversion Hms as [|? ? (_ & _ & _ & Hn) _]. exact Hn.
Qed.

Definition major_one_child : value :=
  raw_major "api" 1 [raw_minor "routes" 0.1 (-0) 3 4].

Lemma single_child_estimates_witness :
  exists m t,
    majorTask (Some major_one_child) = Ok m /\ major_tasks m = [t] /\
    (lowerEstimate (major_estimates m) =? lowerEstimate (minor_estimates t))
    = true /\
    (higherEstimate (major_estimates m) =? higherEstimate (minor_estimates t))
    = true /\
    higherEstimate (minor_estimates t) = (-0) /\
    higherEstimate (major_estimates m) = 0.
Proof.
  pose (m := the_major (majorTask (Some major_one_child))).
  pose (t := mkMinorTask "routes" (mkEstimates 0.1 (-0) 3 4) None).
  assert (Hm : majorTask (Some major_one_child) = Ok m)
    by (vm_compute; reflexivity).
  assert (Ht : major_tasks m = [t]) by (vm_compute; reflexivity).
  destruct (single_child_estimates (Some major_one_child)) as [H _].
  destruct (H m t Hm Ht) as [H1 H2].
  exists m, t. repeat split; try assumption; vm_compute; reflexivity.
Defined.

(** ** The [gantt] schema *)

(** X7: [gantt] accepts exactly the objects with a [position] that is a
    number other than [NaN], a [start] that is a string, and a [label] and a
    [color] that are each absent or a string, and returns these four values
    as they are; [null] or any other value for [label] or [color] is
    rejected. *)
Theorem gantt_accepts_exactly (v : option value) (g : Gantt) :
  gantt v = Ok g <->
  exists o, v = Some (VObj o) /\
    get "position" o = Some (VNum (position g)) /\
    is_nan (position g) = false /\
    get "start" o = Some (VStr (start g)) /\
    get "label" o = option_map VStr (label g) /\
    get "color" o = option_map VStr (color g).
Proof.
  unfold gantt. rewrite z_object_Ok. unfold field. split.
  - intros (o & -> & H). exists o. split; [reflexivity|].
    inv_bind H. inv_bind H. inv_bind H. inv_bind H. inv_Ok H.
    cbn [position start label color].
    apply z_number_Ok in Ha. destruct Ha as [Hp Hn].
    apply z_string_Ok in Ha0.
    assert (Opt : forall w x, z_optional z_string w = Ok x ->
                              w = option_map VStr x).
    { intros w x Hw. destruct w as [w|]; unfold z_optional in Hw;
        cbv beta iota in Hw.
      - inv_bind Hw. inv_Ok Hw. apply z_string_Ok in Ha. exact Ha.
      - inv_Ok Hw. reflexivity. }
    apply Opt in Ha1, Ha2. auto 10.
  - intros (o & -> & Hp & Hn & Hs & Hl & Hc). exists o.
    split; [reflexivity|]. destruct g as [p s l c].
    cbn [position start label color] in *.
    rewrite Hp. cbn [z_number]. rewrite Hn. cbn [bind].
    rewrite Hs. cbn [z_string bind]. rewrite Hl, Hc.
    destruct l, c; reflexivity.
Qed.

(** ** The object a callback returns *)

Lemma get_set_same k v o : get k (set k v o) = Some v.
Proof.
  induction o as [|[k' w] o IH]; cbn [set get].
  - rewrite String.eqb_refl. reflexivity.
  - destruct (String.eqb k' k) eqn:E; cbn [get]; rewrite E; [reflexivity|exact IH].
Qed.

Lemma get_set_other k k' v o : k <> k' -> get k' (set k v o) = get k' o.
Proof.
  intros Hk. induction o as [|[k0 w] o IH]; cbn [set get].
  - apply String.eqb_neq in Hk. rewrite Hk. reflexivity.
  - destruct (String.eqb k0 k) eqn:E; cbn [get].
    + apply String.eqb_eq in E. subst k0.
      apply String.eqb_neq in Hk. rewrite Hk. reflexivity.
    + rewrite IH. reflexivity.
Qed.

Lemma get_absent k o : ~ In k (map fst o) -> get k o = None.
Proof.
  induction o as [|[k' w] o IH]; intros Hk; [reflexivity|]. cbn [get].
  destruct (String.eqb_spec k' k) as [->|_].
  - exfalso. apply Hk. left. reflexivity.
  - apply IH. intros Hin. apply Hk. right. exact Hin.
Qed.

(** X8: in [{...a, ...b}] a key of [b] carries the value it has in [b] and
    every other key carries the value it has in [a]: in the object a
    callback returns, the four derived fields are the totals, whatever the
    input held under these names, and all other fields are the input's. *)
Theorem spread_lookup (a b : list (string * value)) (k : string) :
  NoDup (map fst b) ->
  get k (spread a b)
  = match get k b with
    | Some v => Some v
    | None => get k a
    end.
Proof.
  unfold spread. revert a.
  induction b as [|[k0 v0] b IH]; intros a Hb; [reflexivity|].
  cbn [fold_left fst snd map get] in *. inversion Hb as [|? ? Hk0 Hb']; subst.
  rewrite IH by assumption.
  destruct (String.eqb_spec k0 k) as [->|Hne].
  - rewrite (get_absent k b Hk0). apply get_set_same.
  - rewrite (get_set_other k0 k) by assumption. reflexivity.
Qed.

Lemma spread_lookup_witness :
  get "complexity"
    (spread [("name", VStr "api"); ("complexity", VStr "high")]
       (fields_of_estimates (mkEstimates 1 2 3 4)))%string
  = Some (VNum 3).
Proof.
  rewrite spread_lookup; [reflexivity|].
  repeat constructor; cbn; intuition discriminate.
Defined.

(** ** The order of a category's tasks is determined *)

(** X9: the tasks of an aggregated TaskCategory are the only arrangement of
    the validated MajorTasks that ascends by position and keeps tasks with
    equal positions in their input order: whatever stable sort the platform
    uses, the result is this list. *)
Theorem category_order_is_determined
    (v : option value) (c : TaskCategory) (input : TaskCategoryIn)
    (l : list MajorTask) :
  taskCategory v = Ok c -> taskCategoryIn v = Ok input ->
  Forall (fun m => is_nan (major_position m) = false) l ->
  StronglySorted
    (fun a b => (major_position a <=? major_position b) = true) l ->
  (forall k, with_key major_position k l
             = with_key major_position k (categoryIn_tasks input)) ->
  l = category_tasks c.
Proof.
  intros Hc Hi Hok Hs Hk. apply taskCategory_Ok in Hc.
  destruct Hc as (input' & Hi' & _ & Ht & _). rewrite Hi in Hi'.
  injection Hi' as <-. rewrite Ht.
  apply (Array_sort_unique major_position); try assumption.
  apply taskCategoryIn_wf in Hi.
  eapply Forall_impl; [|exact Hi]. apply wf_major_key_ok.
Qed.

(** A category whose first two MajorTasks share a position. *)
Definition category_1_1_2 : value :=
  raw_category "backend"
    [raw_major "api" 1 [raw_minor "routes" 1 2 3 4];
     raw_major "db" 1 [raw_minor "schema" 1 2 3 4];
     raw_major "auth" 2 [raw_minor "login" 1 2 3 4]].

Definition the_categoryIn (r : result TaskCategoryIn) : TaskCategoryIn :=
  match r with
  | Ok i => i
  | ShapeError => mkTaskCategoryIn "" []
  end.

Lemma category_order_is_determined_witness :
  map major_name
    (category_tasks (the_category (taskCategory (Some category_1_1_2))))
  = ["api"; "db"; "auth"]%string.
Proof.
  pose (input := the_categoryIn (taskCategoryIn (Some category_1_1_2))).
  rewrite <- (category_order_is_determined (Some category_1_1_2)
                (the_category (taskCategory (Some category_1_1_2)))
                input (categoryIn_tasks input)).
  - vm_compute. reflexivity.
  - vm_compute. reflexivity.
  - vm_compute. reflexivity.
  - repeat constructor.
  - repeat constructor.
  - intros k. reflexivity.
Defined.

(** ** The report: table rows and chart sections *)

Section Report.

(** [Number::toString], the platform's decimal rendering of a number.  The
    report is modelled for whatever this rendering is. *)
Variable Number_toString : float -> string.

Local Open Scope string_scope.

(** The line feed of the [\n] escapes. *)
Definition line_feed : string := String "010"%char EmptyString.

(** [ToString(v)], as template literals and [Array.prototype.join] apply it:
    an array is its elements joined by commas, [null] elements left empty. *)
Fixpoint ToString (v : value) : string :=
  match v with
  | VNull => "null"
  | VBool true => "true"
  | VBool false => "false"
  | VNum x => Number_toString x
  | VStr s => s
  | VArr items =>
      String.concat ","
        (map (fun item => match item with VNull => "" | _ => ToString item end)
           items)
  | VObj _ => "[object Object]"
  end.

(** [array.join(separator)]: [undefined] and [null] elements are joined as
    the empty string. *)
Definition Array_join (separator : string) (array : list value) : string :=
  String.concat separator
    (map (fun item => match item with VNull => "" | _ => ToString item end)
       array).

(** [Object.entries(task)] of a plain object. *)
Definition Object_entries (task : value) : list (string * value) :=
  match task with
  | VObj fields => fields
  | _ => []
  end.

(** [exclude.includes(key)] *)
Definition includes (exclude : list string) (key : string) : bool :=
  existsb (String.eqb key) exclude.

(** [formatTask(task, exclude, format, concat)]; [None] in the mapped array
    is [undefined], which the filter drops. *)
Definition formatTask (task : value) (exclude : list string)
    (format : option (value -> value)) (concat : list string) : string :=
  let formatCb := match format with Some f => f | None => fun v => v end in
  let mapped :=
    map (fun entry =>
           if includes exclude (fst entry) then None
           else Some (formatCb (snd entry)))
      (Object_entries task) in
  let filtered :=
    flat_map (fun v => match v with Some x => [x] | None => [] end) mapped in
  Array_join " | " (filtered ++ map (fun s => formatCb (VStr s)) concat).

(** The format callback of the two calls that print derived rows:
    [(v) => `<b>${v}</b>`]. *)
Definition bold (v : value) : value := VStr ("<b>" ++ ToString v ++ "</b>").

(** The three rows that the script prints for a category: one for each
    MajorTask, one for each of its MinorTasks, and the total. *)
Definition major_row (task : MajorTask) : string :=
  formatTask (value_of_majorTask task) ["tasks"; "gantt"] (Some bold) [""].

Definition minor_row (subTask : MinorTask) : string :=
  formatTask (value_of_minorTask subTask) [] None [].

Definition total_row (category : TaskCategory) : string :=
  "<b>Total</b> | "
  ++ formatTask (value_of_taskCategory category) ["tasks"; "name"] (Some bold) [""].

(** [buildGanttSection(section)]; an absent and an empty [color] or [label]
    are both falsy. *)
Definition buildGanttSection (section : TaskCategory) : string :=
  fold_left
    (fun str task =>
       let str := str ++ (major_name task ++ " : ") in
       let str :=
         match color (major_gantt task) with
         | Some (String a c) => str ++ (String a c ++ ", ")
         | _ => str
         end in
       let str :=
         match label (major_gantt task) with
         | Some (String a l) => str ++ (String a l ++ ", ")
         | _ => str
         end in
       str ++ (start (major_gantt task) ++ ", "
               ++ Number_toString (higherEstimate (major_estimates task))
               ++ "h" ++ line_feed))
    (category_tasks section)
    ("section " ++ category_name section ++ line_feed).

(** *** Rows *)

(** A cell in bold. *)
Definition bold_text (s : string) : string := "<b>" ++ s ++ "</b>".

Definition bold_number (x : float) : string := bold_text (Number_toString x).

(** X10: the row of a MajorTask is its name and its four totals, each in
    bold, and an empty bold cell, six cells joined by [" | "]; its tasks and
    its gantt data never show.  The total row of a category is the bold
    word Total, the four totals in bold and an empty bold cell; its name and
    its tasks never show. *)
Theorem derived_rows :
  (forall m,
     major_row m
     = bold_text (major_name m) ++ " | "
       ++ bold_number (lowerEstimate (major_estimates m)) ++ " | "
       ++ bold_number (higherEstimate (major_estimates m)) ++ " | "
       ++ bold_number (complexity (major_estimates m)) ++ " | "
       ++ bold_number (confidence (major_estimates m)) ++ " | "
       ++ bold_text "")
  /\
  (forall c,
     total_row c
     = bold_text "Total" ++ " | "
       ++ bold_number (lowerEstimate (category_estimates c)) ++ " | "
       ++ bold_number (higherEstimate (category_estimates c)) ++ " | "
       ++ bold_number (complexity (category_estimates c)) ++ " | "
       ++ bold_number (confidence (category_estimates c)) ++ " | "
       ++ bold_text "").
Proof.
  split.
  - intros [n ts g [lo hi cx cf]]. reflexivity.
  - intros [n ms [lo hi cx cf]]. reflexivity.
Qed.

(** X11: the row of a MinorTask is its name and its four numbers, not in
    bold, followed by its comment when it has one: five cells without a
    comment, six with one, under a title of six columns. *)
Theorem minor_row_cells (t : MinorTask) :
  minor_row t
  = minor_name t ++ " | "
    ++ Number_toString (lowerEstimate (minor_estimates t)) ++ " | "
    ++ Number_toString (higherEstimate (minor_estimates t)) ++ " | "
    ++ Number_toString (complexity (minor_estimates t)) ++ " | "
    ++ match comment t with
       | Some c => Number_toString (confidence (minor_estimates t)) ++ " | " ++ c
       | None => Number_toString (confidence (minor_estimates t))
       end.
Proof.
  destruct t as [n [lo hi cx cf] [c|]]; reflexivity.
Qed.

(** *** Excluded keys *)

(** X12: [formatTask] does not read the entries whose key is excluded:
    the result is that of the object without them, whatever they hold. *)
Theorem formatTask_drops_excluded
    (fields : list (string * value)) (exclude : list string)
    (format : option (value -> value)) (concat : list string) :
  formatTask (VObj fields) exclude format concat
  = formatTask
      (VObj (filter (fun entry => negb (includes exclude (fst entry))) fields))
      [] format concat.
Proof.
  unfold formatTask. cbn [Object_entries]. f_equal. f_equal.
  induction fields as [|[k v] fields IH]; [reflexivity|].
  cbn [map flat_map filter fst snd].
  destruct (includes exclude k); cbn [negb map flat_map app fst snd includes existsb].
  - exact IH.
  - f_equal. exact IH.
Qed.

(** *** Chart sections *)

(** What a [color] or a [label] contributes to a task's line. *)
Definition gantt_tag (s : option string) : string :=
  match s with
  | Some (String a s') => String a s' ++ ", "
  | _ => ""
  end.

(** The line of one task. *)
Definition gantt_line (task : MajorTask) : string :=
  major_name task ++ " : "
  ++ gantt_tag (color (major_gantt task))
  ++ gantt_tag (label (major_gantt task))
  ++ start (major_gantt task) ++ ", "
  ++ Number_toString (higherEstimate (major_estimates task))
  ++ "h" ++ line_feed.

Lemma append_assoc (a b c : string) : (a ++ b) ++ c = a ++ (b ++ c).
Proof. induction a as [|x a IH]; cbn; [reflexivity|rewrite IH; reflexivity]. Qed.

Lemma append_empty_r (a : string) : a ++ "" = a.
Proof. induction a as [|x a IH]; cbn; [reflexivity|rewrite IH; reflexivity]. Qed.

(** X13: a chart section is the line [section <name>] followed by one line
    for each task of the category, in the order of its tasks: the task's
    name, then its color and then its label when they are not empty, its
    start and its higher estimate in hours.  An empty color or label leaves
    no trace, like an absent one. *)
Theorem buildGanttSection_lines (section : TaskCategory) :
  buildGanttSection section
  = "section " ++ category_name section ++ line_feed
    ++ fold_right append "" (map gantt_line (category_tasks section)).
Proof.
  unfold buildGanttSection.
  transitivity
    (("section " ++ category_name section ++ line_feed)
     ++ fold_right append "" (map gantt_line (category_tasks section)));
    [|rewrite !append_assoc; reflexivity].
  generalize ("section " ++ category_name section ++ line_feed).
  induction (category_tasks section) as [|task tasks IH]; intros str.
  - cbn [fold_left map fold_right]. rewrite append_empty_r. reflexivity.
  - cbn [fold_left map fold_right]. rewrite IH.
    rewrite <- (append_assoc str (gantt_line task)). f_equal.
    unfold gantt_line, gantt_tag.
    destruct (color (major_gantt task)) as [[|a c]|],
      (label (major_gantt task)) as [[|b l]|];
      rewrite ?append_assoc; reflexivity.
Qed.

End Report.
